(** * MiCoNE / mindpipe: stage descriptors and execution commands

    A shallow embedding of [mindpipe/config/params.py] and
    [mindpipe/pipelines/command.py], with the properties of the design
    specification that concern them.

    Layout:
    - [Py]: the fragment of Python the two modules rely on (dynamic values,
      exceptions, a state-and-exception monad for methods that mutate
      [self], [str.split]/[str.join], and sets with user-defined [__hash__]);
    - [Command]: [pipelines/command.py];
    - [Config]: [config/params.py]. *)

From Stdlib Require Import Strings.Byte Strings.Ascii.
From stdpp Require Import gmap strings list fin_maps pretty.

Set Warnings "-register-all,-clear-no-such-hyp".
Set Default Proof Using "Type".

(* ===================================================================== *)
(** * The Python fragment *)
(* ===================================================================== *)

Module Py.

(** ** Dynamic values

    The values that reach the code through [Dict[str, Any]] documents:
    [None], booleans, integers, strings, [pathlib.Path] objects, lists and
    string-keyed dictionaries.  A dictionary is a [gmap], so that equality
    of dictionaries ignores insertion order, as [==] does in Python.  A
    loop over a dictionary goes through [map_to_list]; no statement below
    depends on the order in which it meets the keys. *)

Inductive pyval : Type :=
  | VNone
  | VBool (b : bool)
  | VInt (z : Z)
  | VStr (s : string)
  | VPath (p : string)
  | VList (l : list pyval)
  | VDict (d : gmap string pyval).

Fixpoint pyval_eq_dec (x y : pyval) {struct x} : Decision (x = y).
Proof.
  refine
    (match x, y with
     | VNone, VNone => left _
     | VBool a, VBool b => cast_if (decide (a = b))
     | VInt a, VInt b => cast_if (decide (a = b))
     | VStr a, VStr b => cast_if (decide (a = b))
     | VPath a, VPath b => cast_if (decide (a = b))
     | VList a, VList b =>
         cast_if (@decide (a = b) (@list_eq_dec _ pyval_eq_dec a b))
     | VDict a, VDict b =>
         cast_if (@decide (a = b) (@gmap_eq_dec _ _ _ _ pyval_eq_dec a b))
     | _, _ => right _
     end); congruence.
Defined.

#[export] Instance pyval_eqdec : EqDecision pyval := pyval_eq_dec.

(** [x == y].  A boolean is an integer ([True == 1], [False == 0]), also
    inside lists and dictionaries; apart from that, two values of this
    fragment are equal when they are the same value. *)
Fixpoint py_norm (v : pyval) : pyval :=
  match v with
  | VBool b => VInt (if b then 1 else 0)
  | VList l => VList (py_norm <$> l)
  | VDict d => VDict (py_norm <$> d)
  | _ => v
  end.

Definition py_eq (x y : pyval) : bool := bool_decide (py_norm x = py_norm y).

(** Truth value of an object, as tested by [if loc]. *)
Definition truthy (v : pyval) : bool :=
  match v with
  | VNone => false
  | VBool b => b
  | VInt z => bool_decide (z ≠ 0%Z)
  | VStr s => bool_decide (s ≠ "")
  | VPath _ => true
  | VList l => bool_decide (l ≠ [])
  | VDict d => bool_decide (d ≠ ∅)
  end.

(** ** Exceptions and results

    Each exception carries the fixed part of the message the source gives
    it; interpolated values are left out of the message. *)

Inductive exn : Type :=
  | ValueError (msg : string)
  | KeyError (msg : string)
  | IndexError (msg : string)
  | TypeError (msg : string)
  | FileNotFoundError (msg : string)
  | RuntimeError (msg : string)
  | NotImplementedError (msg : string)
  | AttributeError (msg : string)
  | OSError (msg : string)
  | PermissionError (msg : string)
  | UnicodeDecodeError
  | TimeoutExpired.

#[export] Instance exn_eqdec : EqDecision exn.
Proof. solve_decision. Defined.

Inductive result (A : Type) : Type :=
  | Ok (a : A)
  | Raise (e : exn).

Arguments Ok {A} a.
Arguments Raise {A} e.

#[export] Instance result_ret : MRet result := λ A a, Ok a.
#[export] Instance result_bind : MBind result := λ A B f r,
  match r with
  | Ok a => f a
  | Raise e => Raise e
  end.

#[export] Instance result_fmap : FMap result := λ A B f r,
  match r with
  | Ok a => Ok (f a)
  | Raise e => Raise e
  end.

Definition of_option {A} (o : option A) (e : exn) : result A :=
  match o with Some a => Ok a | None => Raise e end.

(** [type(v).__name__] *)
Definition type_name (v : pyval) : string :=
  match v with
  | VNone => "NoneType"
  | VBool _ => "bool"
  | VInt _ => "int"
  | VStr _ => "str"
  | VPath _ => "PosixPath"
  | VList _ => "list"
  | VDict _ => "dict"
  end.

(** What [x in v] raises for a [v] that is no container. *)
Definition not_iterable (v : pyval) : exn :=
  TypeError ("argument of type '" +:+ type_name v +:+ "' is not iterable").

(** ** Methods that mutate [self]

    A method is a function from the state of the object before the call to
    the outcome of the call and the state after it.  An exception leaves
    the object in the state it had when the exception was raised: nothing
    is rolled back. *)

Definition M (S A : Type) : Type := S → result A * S.

#[export] Instance M_ret {S} : MRet (M S) := λ A a s, (Ok a, s).
#[export] Instance M_bind {S} : MBind (M S) := λ A B f m s,
  match m s with
  | (Ok a, s') => f a s'
  | (Raise e, s') => (Raise e, s')
  end.

Definition raise {S A} (e : exn) : M S A := λ s, (Raise e, s).
Definition lift {S A} (r : result A) : M S A := λ s, (r, s).
Definition modify {S} (f : S → S) : M S unit := λ s, (Ok tt, f s).

(** [for x in xs: body(x)], over a list. *)
Fixpoint for_each {S A} (xs : list A) (body : A → M S unit) : M S unit :=
  match xs with
  | [] => mret tt
  | x :: xs' => body x ;; for_each xs' body
  end.

(** ** Strings *)

(** [s.split(sep)] for a separator of one character: the string is cut at
    every occurrence of [sep]; the result is never empty. *)
Fixpoint str_split (sep : ascii) (s : string) : list string :=
  match s with
  | EmptyString => [EmptyString]
  | String c s' =>
      if decide (c = sep) then EmptyString :: str_split sep s'
      else match str_split sep s' with
           | [] => [String c EmptyString]
           | w :: ws => String c w :: ws
           end
  end.

(** [sep.join(words)]. *)
Fixpoint str_join (sep : string) (words : list string) : string :=
  match words with
  | [] => EmptyString
  | [w] => w
  | w :: ws => w +:+ sep +:+ str_join sep ws
  end.

(** [sub in s], for strings. *)
Fixpoint str_contains (sub s : string) : bool :=
  String.prefix sub s ||
  match s with
  | EmptyString => false
  | String _ s' => str_contains sub s'
  end.

(** [for ch in s]: the characters of [s], each a string of length one. *)
Fixpoint str_chars (s : string) : list string :=
  match s with
  | EmptyString => []
  | String c s' => String c EmptyString :: str_chars s'
  end.

(** ** Sets of objects with a user-defined [__hash__]

    A set is kept as the list of its elements in one iteration order.
    Python leaves that order unspecified, and the place [set_add] gives a
    new element, the end of the list, is a choice of this model: an
    interpreter may as well put it where an element was removed before.
    The order shows only where a set holds several elements with the key
    a lookup goes by: the theorems below about lookups are for sets whose
    elements have distinct keys, or hold whichever element is met first,
    and an example with two elements of one key is an example for the
    order it is written in.
    An object [x] is found in a set when some stored [y] has
    [hash(y) == hash(x)] and [y == x]. *)

Section PySet.
Context {A : Type} (hash : A → Z) (eq : A → A → bool).

Definition same (x y : A) : bool := bool_decide (hash y = hash x) && eq y x.

Definition set_contains (x : A) (s : list A) : bool := existsb (same x) s.

(** [s.add(x)] *)
Definition set_add (x : A) (s : list A) : list A :=
  if set_contains x s then s else s ++ [x].

Fixpoint set_discard (x : A) (s : list A) : list A :=
  match s with
  | [] => []
  | y :: s' => if same x y then s' else y :: set_discard x s'
  end.

(** [s.remove(x)] *)
Definition set_remove (x : A) (s : list A) : result (list A) :=
  if set_contains x s then Ok (set_discard x s)
  else Raise (KeyError "element not in set").

End PySet.

End Py.

Import Py.

(* ===================================================================== *)
(** * [mindpipe/pipelines/command.py] *)
(* ===================================================================== *)

Module Command.

(** The methods of [Command] but [log], which adds nothing to the state
    and writes to a file and to the standard streams. *)

(** ** The operating system, as seen through [subprocess]

    A [Popen] handle records the argument vector it was started with (its
    [args] attribute) and the working directory.  What the child does is
    outside the program: [World] gives, for a handle and a time limit, the
    outcome of [communicate(timeout=...)], and says whether starting a
    child fails.  [decode_utf8] is [bytes.decode("utf-8")], which raises
    [UnicodeDecodeError] on bytes that are not UTF-8. *)

Record Popen : Type := {
  args : list string;
  cwd : option string
}.

#[export] Instance Popen_eqdec : EqDecision Popen.
Proof. solve_decision. Defined.

Inductive comm_outcome : Type :=
  | Exited (stdout stderr : list byte)
  | Expired.

Record World : Type := {
  spawn_error : list string → option string → option exn;
  communicate : Popen → Z → comm_outcome;
  decode_utf8 : list byte → option string
}.

(** ** The [Command] object *)

Record Command : Type := {
  profile : string;
  _cmd : list string;
  _timeout : Z;
  _stdout : option string;
  _stderr : option string;
  process : option Popen
}.

Definition set_cmd (v : list string) (c : Command) : Command :=
  {| profile := profile c; _cmd := v; _timeout := _timeout c;
     _stdout := _stdout c; _stderr := _stderr c; process := process c |}.
Definition set_stdout (v : option string) (c : Command) : Command :=
  {| profile := profile c; _cmd := _cmd c; _timeout := _timeout c;
     _stdout := v; _stderr := _stderr c; process := process c |}.
Definition set_stderr (v : option string) (c : Command) : Command :=
  {| profile := profile c; _cmd := _cmd c; _timeout := _timeout c;
     _stdout := _stdout c; _stderr := v; process := process c |}.
Definition set_process (v : option Popen) (c : Command) : Command :=
  {| profile := profile c; _cmd := _cmd c; _timeout := _timeout c;
     _stdout := _stdout c; _stderr := _stderr c; process := v |}.

(** [_build_cmd]: reads [self.profile]. *)
Definition _build_cmd (profile : string) (cmd : string) : result (list string) :=
  let command : list string := [] in
  command ←
    (if decide (profile = "local") then Ok command
     else if decide (profile = "sge") then Ok (command ++ ["qsub"])
     else Raise (ValueError "Unsupported profile! Choose either 'local' or 'sge'"));
  Ok (command ++ str_split " " cmd).

(** [__init__]; the class attributes [_stdout], [_stderr] and [process]
    are [None] on a new object. *)
Definition __init__ (cmd profile : string) (timeout : Z) : result Command :=
  built ← _build_cmd profile cmd;
  Ok {| profile := profile; _cmd := built; _timeout := timeout;
        _stdout := None; _stderr := None; process := None |}.

(** The [cmd] property. *)
Definition cmd (self : Command) : string := str_join " " (_cmd self).

Section Methods.
Variable W : World.

(** [run]: [subprocess.Popen] either raises, and [self.process] keeps its
    value, or gives a handle whose [args] is [self._cmd]. *)
Definition run (cwd : option string) : M Command Popen := λ self,
  match spawn_error W (_cmd self) cwd with
  | Some e => (Raise e, self)
  | None =>
      let p := {| args := _cmd self; cwd := cwd |} in
      (Ok p, set_process (Some p) self)
  end.

(** [stdout, stderr = self.process.communicate(timeout=self._timeout)] *)
Definition do_communicate (p : Popen) : M Command (list byte * list byte) :=
  λ self,
  match communicate W p (_timeout self) with
  | Exited out err => (Ok (out, err), self)
  | Expired => (Raise TimeoutExpired, self)
  end.

Definition decode (b : list byte) : M Command string :=
  lift (of_option (decode_utf8 W b) UnicodeDecodeError).

(** [wait] *)
Definition wait : M Command unit := λ self,
  match process self with
  | Some p =>
      ('(stdout, stderr) ← do_communicate p;
       e ← decode stderr;
       modify (set_stderr (Some e));;
       o ← decode stdout;
       modify (set_stdout (Some o))) self
  | None => (Ok tt, self)
  end.

(** [proc_cmd_sync]: [self.process.args] on [None] raises
    [AttributeError]. *)
Definition proc_cmd_sync (self : Command) : result bool :=
  match process self with
  | None => Raise (AttributeError "'NoneType' object has no attribute 'args'")
  | Some p => if decide (_cmd self = args p) then Ok true else Ok false
  end.

(** The [output] property. *)
Definition output : M Command string := λ self,
  match _stdout self with
  | Some stdout => (Ok stdout, self)
  | None =>
      match process self with
      | Some p =>
          ('(stdout, stderr) ← do_communicate p;
           o ← decode stdout;
           modify (set_stdout (Some o));;
           e ← decode stderr;
           modify (set_stderr (Some e));;
           mret o) self
      | None =>
          (Raise (NotImplementedError
                    "Please run the command before requesting output!"), self)
      end
  end.

(** The [error] property. *)
Definition error : M Command string := λ self,
  match _stderr self with
  | Some stderr => (Ok stderr, self)
  | None =>
      match process self with
      | Some p =>
          ('(stdout, stderr) ← do_communicate p;
           o ← decode stdout;
           modify (set_stdout (Some o));;
           e ← decode stderr;
           modify (set_stderr (Some e));;
           mret e) self
      | None =>
          (Raise (NotImplementedError
                    "Please run the command before requesting errors!"), self)
      end
  end.

(** [update]; the warning it emits is not part of the state. *)
Definition update (cmd : string) : M Command unit := λ self,
  match _build_cmd (profile self) cmd with
  | Raise e => (Raise e, self)
  | Ok built =>
      let self := set_cmd built self in
      match process self with
      | Some _ =>
          match proc_cmd_sync self with
          | Raise e => (Raise e, self)
          | Ok true => (Ok tt, self)
          | Ok false =>
              (Ok tt, set_process None (set_stderr None (set_stdout None self)))
          end
      | None => (Ok tt, self)
      end
  end.

(** A command on which [run] was never called: it was constructed, and
    since then only [update], [wait], [output] and [error] were called on
    it. *)
Inductive never_run : Command → Prop :=
  | never_run_init cmd profile timeout self :
      __init__ cmd profile timeout = Ok self → never_run self
  | never_run_update cmd self r self' :
      never_run self → update cmd self = (r, self') → never_run self'
  | never_run_wait self r self' :
      never_run self → wait self = (r, self') → never_run self'
  | never_run_output self r self' :
      never_run self → output self = (r, self') → never_run self'
  | never_run_error self r self' :
      never_run self → error self = (r, self') → never_run self'.

End Methods.
End Command.

(* ===================================================================== *)
(** * [Command.log] *)
(* ===================================================================== *)

Module CommandLog.
Import Command.

(** What a call of [log] writes: the text of the log file, and what it
    mirrors to the standard streams of the calling process. *)
Record Written : Type := {
  file_text : string;
  to_stdout : string;
  to_stderr : string
}.

(** [s * n] *)
Fixpoint str_repeat (s : string) (n : nat) : string :=
  match n with
  | 0 => EmptyString
  | S n' => s +:+ str_repeat s n'
  end.

Definition newline : string := String "010" EmptyString.

(** The writes inside [with open(log_file, "w") as fid], in their order. *)
Definition log_text (stdout stderr : string) : string :=
  str_repeat "-" 40 +:+ " [STDOUT] " +:+ str_repeat "-" 40
  +:+ newline
  +:+ stdout
  +:+ newline
  +:+ str_repeat "-" 40 +:+ " [STDERR] " +:+ str_repeat "-" 40
  +:+ newline
  +:+ stderr.

Section Log.
Variable W : World.
(** [open(log_file, "w")]: the exception it raises, if any.  A file that
    opens takes every write. *)
Variable open_error : string → option exn.

(** [log]: the captured text is kept in local variables, not in [self]. *)
Definition log (log_file : string) : M Command Written := λ self,
  let captured : result (string * string) :=
    match _stdout self, _stderr self with
    | Some stdout, Some stderr => Ok (stdout, stderr)
    | _, _ =>
        match process self with
        | Some p =>
            match communicate W p (_timeout self) with
            | Exited stdout stderr =>
                stdout ← of_option (decode_utf8 W stdout) UnicodeDecodeError;
                stderr ← of_option (decode_utf8 W stderr) UnicodeDecodeError;
                Ok (stdout, stderr)
            | Expired => Raise TimeoutExpired
            end
        | None =>
            Raise (NotImplementedError
                     "Please run the command before requesting errors!")
        end
    end in
  match captured with
  | Raise e => (Raise e, self)
  | Ok (stdout, stderr) =>
      match open_error log_file with
      | Some e => (Raise e, self)
      | None =>
          (Ok {| file_text := log_text stdout stderr;
                 to_stdout := stdout; to_stderr := stderr |}, self)
      end
  end.

End Log.
End CommandLog.

(* ===================================================================== *)
(** * [mindpipe/config/params.py] *)
(* ===================================================================== *)

Module Config.

(** ** Paths and the file system

    A [pathlib.Path] is kept by its string form, taken as already
    normalised.  The file system and the installation directory
    [PIPELINE_DIR] are outside the program.  [Path.exists] and
    [Path.is_dir] return a boolean, or raise the error of the underlying
    [stat] call when that error does not mean that the path is absent
    ([PermissionError] below a directory that cannot be searched). *)

Record FileSystem : Type := {
  PIPELINE_DIR : string;
  path_exists : string → result bool;
  path_is_dir : string → result bool
}.

(** [p.is_absolute()] on a POSIX path. *)
Definition is_absolute (p : string) : bool :=
  match p with
  | String "/" _ => true
  | _ => false
  end.

(** [base / p]: an absolute right operand replaces the left one. *)
Definition joinpath (base p : string) : string :=
  if is_absolute p then p else base +:+ "/" +:+ p.

(** ** Locations

    The location of an input or output is [None], a [pathlib.Path] or a
    [str].  [_process_io] stores a path or [None]; [update_location] and
    [merge] store the object they are handed as it is, and the annotation of
    [update_location] makes that a [str].  A path and a string are never
    equal. *)
Inductive Location : Type :=
  | LNone
  | LPath (p : string)
  | LStr (s : string).

#[export] Instance Location_eqdec : EqDecision Location.
Proof. solve_decision. Defined.

(** [str(location)] *)
Definition str_location (l : Location) : string :=
  match l with
  | LNone => "None"
  | LPath p => p
  | LStr s => s
  end.

(** ** Records

    [Input] and [Output] are named tuples with the same three fields; the
    code handles both through [IOType].  [datatype] and [format] have the
    types the annotations give them. *)

Record IOType : Type := {
  datatype : string;
  format : list string;
  location : Location
}.

Abbreviation Input := IOType (only parsing).
Abbreviation Output := IOType (only parsing).

Record Parameters : Type := {
  process : string;
  params : gmap string pyval
}.

Record Params : Type := {
  name : string;
  root : string;
  env : option string;
  output_location : string;
  input : list Input;
  output : list Output;
  parameters : list Parameters
}.

#[export] Instance IOType_eqdec : EqDecision IOType.
Proof. solve_decision. Defined.
#[export] Instance Parameters_eqdec : EqDecision Parameters.
Proof. solve_decision. Defined.
#[export] Instance Params_eqdec : EqDecision Params.
Proof. solve_decision. Defined.

Definition set_input (v : list Input) (self : Params) : Params :=
  {| name := name self; root := root self; env := env self;
     output_location := output_location self;
     input := v; output := output self; parameters := parameters self |}.
Definition set_output (v : list Output) (self : Params) : Params :=
  {| name := name self; root := root self; env := env self;
     output_location := output_location self;
     input := input self; output := v; parameters := parameters self |}.
Definition set_parameters (v : list Parameters) (self : Params) : Params :=
  {| name := name self; root := root self; env := env self;
     output_location := output_location self;
     input := input self; output := output self; parameters := v |}.

(** The fields of a descriptor other than its input set, and other than
    its parameter set; used to say what a method leaves alone. *)
Definition beside_input (self : Params) :=
  (name self, root self, env self, output_location self, output self,
   parameters self).
Definition beside_parameters (self : Params) :=
  (name self, root self, env self, output_location self, input self,
   output self).

(** What [get] returns: [Union[Input, Output, Parameters]]. *)
Inductive element : Type :=
  | IsIO (io : IOType)
  | IsParameters (p : Parameters).

(** Reading [.datatype], [.format] or [.location] of an element. *)
Definition as_io (e : element) : result IOType :=
  match e with
  | IsIO io => Ok io
  | IsParameters _ =>
      Raise (AttributeError "'Parameters' object has no attribute 'datatype'")
  end.

(** Reading [.process] or [.params] of an element. *)
Definition as_parameters (e : element) : result Parameters :=
  match e with
  | IsParameters p => Ok p
  | IsIO _ =>
      Raise (AttributeError "object has no attribute 'process'")
  end.

(** An object with its identity: [addr] is what [id(obj)] returns. *)
Record object (A : Type) : Type := {
  addr : nat;
  value : A
}.
Arguments addr {A} _.
Arguments value {A} _.

(** The user settings handed to [merge]: a list of input overrides with the
    keys [datatype], [format] and [location], and a list of parameter
    overrides, free-form dictionaries that carry the key [process]. *)
Record InputOverride : Type := {
  ov_datatype : string;
  ov_format : list string;
  ov_location : Location
}.

Record UserSettings : Type := {
  us_input : list InputOverride;
  us_parameters : list (gmap string pyval)
}.

(** [{k: v for ...}] and repeated [d[k] = v]: a later item replaces an
    earlier one with the same key. *)
Definition dict_of {V} (items : list (string * V)) : gmap string V :=
  foldl (λ d kv, <[kv.1 := kv.2]> d) ∅ items.

(** [{**a, **b}]: the keys of [b] win. *)
Definition dict_merge {V} (a b : gmap string V) : gmap string V := b ∪ a.

Section WithHash.
(** [hash] on strings; it differs from one interpreter run to the next. *)
Variable hash_str : string → Z.

(** ** [__hash__] and [==] of the records

    The three named tuples define [__hash__] on their first field and
    inherit [==] from [tuple], which compares all fields with [==].  On
    the fields of an [Input] or [Output] that is equality of the values; the
    param map of a [Parameters] holds any values, compared by [py_eq].
    [Params] defines [__hash__] on [name] and inherits [==] from [object]:
    identity. *)

Definition IOType_hash (io : IOType) : Z := hash_str (datatype io).
Definition IOType_eq (x y : IOType) : bool := bool_decide (x = y).

Definition Parameters_hash (p : Parameters) : Z := hash_str (process p).
Definition Parameters_eq (x y : Parameters) : bool :=
  bool_decide (process x = process y) &&
  py_eq (VDict (params x)) (VDict (params y)).

Definition Params_hash (p : object Params) : Z := hash_str (name (value p)).
Definition Params_eq (x y : object Params) : bool :=
  bool_decide (addr x = addr y).

Definition io_add := set_add IOType_hash IOType_eq.
Definition io_remove := set_remove IOType_hash IOType_eq.
Definition parameters_add := set_add Parameters_hash Parameters_eq.
Definition parameters_remove := set_remove Parameters_hash Parameters_eq.

(** ** [Params.get] *)

(** [for element in query_set: if getattr(element, attr) == name: return
    element] *)
Fixpoint first_with {A} (attr : A → string) (name : string)
    (query_set : list A) : option A :=
  match query_set with
  | [] => None
  | element :: rest =>
      if decide (attr element = name) then Some element
      else first_with attr name rest
  end.

Definition get (self : Params) (name category : string) : result element :=
  let not_found :=
    KeyError (name +:+ " not found in " +:+ category +:+ " of "
              +:+ Config.name self) in
  if decide (category = "input") then
    of_option (IsIO <$> first_with datatype name (input self)) not_found
  else if decide (category = "output") then
    of_option (IsIO <$> first_with datatype name (output self)) not_found
  else if decide (category = "parameters") then
    of_option (IsParameters <$> first_with process name (parameters self))
      not_found
  else
    Raise (TypeError
      "Category can only be one of {'input', 'output', 'parameters'}").

(** ** [Params.update_location] *)

Definition remove_from_input (x : Input) : M Params unit := λ self,
  match io_remove x (input self) with
  | Ok s => (Ok tt, set_input s self)
  | Raise e => (Raise e, self)
  end.
Definition add_to_input (x : Input) : M Params unit :=
  modify (λ self, set_input (io_add x (input self)) self).
Definition remove_from_output (x : Output) : M Params unit := λ self,
  match io_remove x (output self) with
  | Ok s => (Ok tt, set_output s self)
  | Raise e => (Raise e, self)
  end.
Definition add_to_output (x : Output) : M Params unit :=
  modify (λ self, set_output (io_add x (output self)) self).
Definition remove_from_parameters (x : Parameters) : M Params unit := λ self,
  match parameters_remove x (parameters self) with
  | Ok s => (Ok tt, set_parameters s self)
  | Raise e => (Raise e, self)
  end.
Definition add_to_parameters (x : Parameters) : M Params unit :=
  modify (λ self, set_parameters (parameters_add x (parameters self)) self).

Definition update_location (name : string) (location : Location)
    (category : string) : M Params unit :=
  element ← (λ self, (get self name category, self)) : M Params element;
  if decide (category = "input") then
    element ← lift (as_io element);
    let new_element :=
      {| datatype := datatype element; format := format element;
         location := location |} in
    remove_from_input element;;
    add_to_input new_element
  else if decide (category = "output") then
    element ← lift (as_io element);
    let new_element :=
      {| datatype := datatype element; format := format element;
         location := location |} in
    remove_from_output element;;
    add_to_output new_element
  else
    raise (TypeError "Category can only be either 'Input' or 'Output'").

(** ** [Params.verify_io] *)

Section WithFileSystem.
Variable fs : FileSystem.

Definition verify_input (elem : Input) : result unit :=
  match location elem with
  | LNone => Raise (ValueError "Input has not been assigned a location yet")
  | LPath loc =>
      found ← path_exists fs loc;
      if found : bool then Ok tt
      else Raise (FileNotFoundError "Unable to location input file")
  | LStr _ =>
      Raise (AttributeError "'str' object has no attribute 'exists'")
  end.

Definition verify_output (elem : Output) : result unit :=
  match location elem with
  | LNone => Raise (ValueError "Output has not been assigned a location yet")
  | LPath loc =>
      if is_absolute loc then Ok tt
      else Raise (ValueError
                    "All the output objects do not have absolute paths")
  | LStr _ =>
      Raise (AttributeError "'str' object has no attribute 'is_absolute'")
  end.

(** [for x in xs: check(x)], for a check that does not mutate. *)
Fixpoint check_all {A} (check : A → result unit) (xs : list A) : result unit :=
  match xs with
  | [] => Ok tt
  | x :: xs' => check x ;; check_all check xs'
  end.

Definition verify_io (self : Params) : result unit :=
  (if is_absolute (output_location self) then Ok tt
   else Raise (ValueError "The output location must be absolute"));;
  check_all verify_input (input self);;
  check_all verify_output (output self).

(** ** The [dict] property *)

Definition dict (self : Params) : result (gmap string pyval) :=
  verify_io self;;
  let data : gmap string pyval := ∅ in
  let data :=
    <["input" :=
        VDict (dict_of ((λ elem, (datatype elem,
                                  VStr (str_location (location elem))))
                        <$> input self))]> data in
  let data :=
    <["output" :=
        VDict (dict_of ((λ elem, (datatype elem,
                                  VStr (str_location (location elem))))
                        <$> output self))]> data in
  let data := <["output_dir" := VPath (output_location self)]> data in
  let data :=
    foldl (λ data process_params,
             <[process process_params := VDict (params process_params)]> data)
          data (parameters self) in
  Ok data.

End WithFileSystem.

(** ** [Params.merge] *)

Definition merge_input (curr_input : InputOverride) : M Params unit :=
  element ← (λ self, (get self (ov_datatype curr_input) "input", self))
            : M Params element;
  io_item ← lift (as_io element);
  (if forallb (λ f, bool_decide (f ∈ format io_item)) (ov_format curr_input)
   then mret tt
   else raise (ValueError "not a supported format"));;
  let updated_input :=
    {| datatype := datatype io_item; format := ov_format curr_input;
       location := ov_location curr_input |} in
  remove_from_input io_item;;
  add_to_input updated_input.

(** [curr_params["process"]], then [self.get(..., category="parameters")]:
    a name that is not a string equals no process name. *)
Definition merge_parameters (curr_params : gmap string pyval)
    : M Params unit :=
  key ← lift (of_option (curr_params !! "process") (KeyError "process"));
  element ← (λ self,
      (match key with
       | VStr process => get self process "parameters"
       | _ => Raise (KeyError "not found in parameters")
       end, self)) : M Params element;
  param_item ← lift (as_parameters element);
  let updated_param :=
    {| process := process param_item;
       params := dict_merge (params param_item) curr_params |} in
  remove_from_parameters param_item;;
  add_to_parameters updated_param.

Definition merge (user_settings : UserSettings) : M Params unit :=
  for_each (us_input user_settings) merge_input;;
  for_each (us_parameters user_settings) merge_parameters.

(** ** [Params.attach_to]

    The loop runs over [self.input] while [update_location] removes from it
    and adds to it.  A set iterator raises [RuntimeError] when it finds, on
    being advanced, that the size of its set has changed; otherwise it
    goes on through the elements the set had when the loop started.
    [previous] is only read, and only its outputs, which the loop does not
    touch: it is passed as a value, also when it is [self]. *)

Definition check_size (size : nat) : M Params unit := λ self,
  if decide (length (input self) = size) then (Ok tt, self)
  else (Raise (RuntimeError "Set changed size during iteration"), self).

Fixpoint for_each_input (size : nat) (elems : list Input)
    (body : Input → M Params unit) : M Params unit :=
  match elems with
  | [] => check_size size
  | elem :: rest =>
      check_size size;;
      body elem;;
      for_each_input size rest body
  end.

(** What the body of the loop makes of one input: the same datatype and
    format, and the location of the output that [previous.get] returns. *)
Definition attached (previous : Params) (input_ : Input) : Input :=
  {| datatype := datatype input_; format := format input_;
     location :=
       match first_with datatype (datatype input_) (output previous) with
       | Some output_ => location output_
       | None => location input_
       end |}.

(** The body of the loop. *)
Definition attach_body (previous : Params) (input_ : Input) : M Params unit :=
  element ← lift (get previous (datatype input_) "output");
  output_ ← lift (as_io element);
  update_location (datatype input_) (location output_) "input".

Definition attach_to (previous : Params) : M Params unit := λ self,
  for_each_input (length (input self)) (input self) (attach_body previous) self.

(** ** Construction from a catalog entry

    A catalog entry is a [Dict[str, Any]].  Where the code stores a value
    in a field without looking at it, the value is required here to have
    the type the field is annotated with, and [TypeError] is raised if it
    has not; no statement below is about such entries.  Where the code
    tests [key in value] or reads [value[key]], the test and the read are
    those of the type [value] has: a dictionary has keys, a string has
    substrings and a list has elements, and neither can be indexed by a
    string; a value of another type cannot be tested at all. *)

Definition as_str (v : pyval) : result string :=
  match v with
  | VStr s => Ok s
  | _ => Raise (TypeError "expected str")
  end.

(** [pathlib.Path(v)] and [base / v]: [v] is a string or a path. *)
Definition as_path (v : pyval) : result string :=
  match v with
  | VStr s | VPath s => Ok s
  | _ => Raise (TypeError "expected str, bytes or os.PathLike object")
  end.

Fixpoint as_str_list (l : list pyval) : result (list string) :=
  match l with
  | [] => Ok []
  | v :: l' => s ← as_str v; ss ← as_str_list l'; Ok (s :: ss)
  end.

Definition as_format (v : pyval) : result (list string) :=
  match v with
  | VList l => as_str_list l
  | _ => Raise (TypeError "expected list of str")
  end.

(** [for x in xs: acc = step(acc, x)], stopping at the first exception. *)
Fixpoint fold_result {A B} (step : B → A → result B) (xs : list A) (acc : B)
    : result B :=
  match xs with
  | [] => Ok acc
  | x :: xs' => acc' ← step acc x; fold_result step xs' acc'
  end.

Definition _fields : list string := ["datatype"; "format"; "location"].

(** [IO._field_defaults.keys()]: [Input] gives [location] a default,
    [Output] gives none. *)
Definition _field_defaults (category : string) : result (list string) :=
  if decide (category = "input") then Ok ["location"]
  else if decide (category = "output") then Ok []
  else Raise (TypeError "Category can only be either 'Input' or 'Output'").

(** The body of the loop [for item in data], for an item that is a
    dictionary. *)
Definition _process_io_dict (category : string) (req_fields : list string)
    (io_tuples : list IOType) (item : gmap string pyval)
    : result (list IOType) :=
  (if forallb (λ field, bool_decide (is_Some (item !! field))) req_fields
   then Ok tt else Raise (ValueError ("Invalid " +:+ category +:+ ". Missing field")));;
  (if forallb (λ field, bool_decide (field ∈ _fields)) (elements (dom item))
   then Ok tt else Raise (ValueError ("Invalid " +:+ category +:+ ". Extra field")));;
  let item_subset : gmap string pyval :=
    filter (λ kv, kv.1 ∈ req_fields) item in
  let loc := default VNone (item_subset !! "location") in
  location ← (if truthy loc then LPath <$> as_path loc else Ok LNone);
  datatype ← (of_option (item_subset !! "datatype") (TypeError "datatype")
              ≫= as_str);
  format ← (of_option (item_subset !! "format") (TypeError "format")
            ≫= as_format);
  Ok (io_add {| datatype := datatype; format := format;
                location := location |} io_tuples).

(** The body of the loop, for any item.  An item that is a string has the
    field names as substrings or not, and its characters are no field
    names; an item that is a list has them as elements or not; neither
    gets as far as a record, as [item[k]] fails. *)
Definition _process_io_item (category : string) (req_fields : list string)
    (io_tuples : list IOType) (item : pyval) : result (list IOType) :=
  let missing := ValueError ("Invalid " +:+ category +:+ ". Missing field") in
  let extra := ValueError ("Invalid " +:+ category +:+ ". Extra field") in
  match item with
  | VDict item => _process_io_dict category req_fields io_tuples item
  | VStr item =>
      if forallb (λ field, str_contains field item) req_fields then
        if forallb (λ field, bool_decide (field ∈ _fields)) (str_chars item)
        then Raise (TypeError "string indices must be integers")
        else Raise extra
      else Raise missing
  | VList item =>
      if forallb (λ field, bool_decide (VStr field ∈ item)) req_fields then
        if forallb (λ field, bool_decide (field ∈ VStr <$> _fields)) item
        then Raise (TypeError "list indices must be integers or slices, not str")
        else Raise extra
      else Raise missing
  | _ => Raise (not_iterable item)
  end.

Definition _process_io (data : pyval) (category : string)
    : result (list IOType) :=
  defaults ← _field_defaults category;
  let io_tuples : list IOType := [] in
  match data with
  | VList data =>
      let req_fields := filter (λ field, field ∉ defaults) _fields in
      fold_result (_process_io_item category req_fields) data io_tuples
  | _ => Raise (TypeError (category +:+ " must be a List"))
  end.

Definition _req_keys : list string :=
  ["root"; "output_location"; "input"; "output"; "parameters"].

(** The body of the loop [for curr_param in value["parameters"]]. *)
Definition add_parameters (parameters : list Parameters) (curr_param : pyval)
    : result (list Parameters) :=
  let missing := ValueError "Parameters is missing 'process' field" in
  match curr_param with
  | VDict curr_param =>
      match curr_param !! "process" with
      | None => Raise missing
      | Some process =>
          process ← as_str process;
          let params := filter (λ kv, kv.1 ≠ "process") curr_param in
          Ok (parameters_add {| process := process; params := params |}
                parameters)
      end
  | VStr curr_param =>
      if str_contains "process" curr_param
      then Raise (AttributeError "'str' object has no attribute 'items'")
      else Raise missing
  | VList curr_param =>
      if bool_decide (VStr "process" ∈ curr_param)
      then Raise (AttributeError "'list' object has no attribute 'items'")
      else Raise missing
  | _ => Raise (not_iterable curr_param)
  end.

Section Construction.
Variable fs : FileSystem.

(** [if not p.exists() or not p.is_dir(): raise FileNotFoundError(msg)] *)
Definition check_dir (p : string) (msg : string) : result unit :=
  found ← path_exists fs p;
  is_dir ← (if found : bool then path_is_dir fs p else Ok false);
  if is_dir : bool then Ok tt else Raise (FileNotFoundError msg).

(** [Params.__init__], on the pair [(key, value)] with [value] a
    dictionary; [data] being a pair, the test [len(data) != 2] never
    fires. *)
Definition Params_init (key : string) (value : gmap string pyval)
    : result Params :=
  (if forallb (λ req_key, bool_decide (is_Some (value !! req_key))) _req_keys
   then Ok tt
   else Raise (ValueError "Invalid process data. required key not found"));;
  root ← (of_option (value !! "root") (KeyError "root") ≫= as_path);
  let root := joinpath (PIPELINE_DIR fs) root in
  check_dir root "The root directory doesn't exist. Please reinstall the package";;
  env ← match value !! "env" with
        | Some env =>
            env ← as_path env;
            let env := joinpath (PIPELINE_DIR fs) env in
            check_dir env
              "The directory for the environment doesn't exist. Please reinstall the package";;
            Ok (Some env)
        | None => Ok None
        end;
  output_location ←
    (of_option (value !! "output_location") (KeyError "output_location")
     ≫= as_path);
  input ← (of_option (value !! "input") (KeyError "input")
           ≫= λ data, _process_io data "input");
  output ← (of_option (value !! "output") (KeyError "output")
            ≫= λ data, _process_io data "output");
  parameters ← of_option (value !! "parameters") (KeyError "parameters");
  match parameters with
  | VList curr_params =>
      parameters ← fold_result add_parameters curr_params [];
      Ok {| name := key; root := root; env := env;
            output_location := output_location;
            input := input; output := output; parameters := parameters |}
  | _ => Raise (TypeError "Parameters must be a List.")
  end.

(** [Params((key, value))], for any [value].  A string that has the
    required keys as substrings, or a list that has them as elements,
    passes the first loop and fails at [value["root"]]. *)
Definition Params_of_item (key : string) (value : pyval) : result Params :=
  let missing := ValueError "Invalid process data. required key not found" in
  match value with
  | VDict value => Params_init key value
  | VStr value =>
      if forallb (λ req_key, str_contains req_key value) _req_keys
      then Raise (TypeError "string indices must be integers")
      else Raise missing
  | VList value =>
      if forallb (λ req_key, bool_decide (VStr req_key ∈ value)) _req_keys
      then Raise (TypeError "list indices must be integers or slices, not str")
      else Raise missing
  | _ => Raise (not_iterable value)
  end.

(** ** [ParamsSet]

    [processes] is a set of [Params] objects.  Each call of the [Params]
    constructor makes a new object, at an address no earlier object has. *)

Record ParamsSet : Type := {
  processes : list (object Params)
}.

Definition processes_contains := set_contains Params_hash Params_eq.
Definition processes_add := set_add Params_hash Params_eq.

(** The body of the loop [for key, value in data.items()]; [allocated]
    counts the objects made so far. *)
Definition ParamsSet_step (state : nat * list (object Params))
    (item : string * pyval) : result (nat * list (object Params)) :=
  let '(allocated, processes) := state in
  let '(key, value) := item in
  process_params ← Params_of_item key value;
  let process_params := {| addr := allocated; value := process_params |} in
  if processes_contains process_params processes then
    Raise (ValueError
             "Duplicate process definitions detected in settings. Aborting")
  else Ok (S allocated, processes_add process_params processes).

(** [ParamsSet.__init__], on the sequence that [data.items()] gives. *)
Definition ParamsSet_init_items (items : list (string * pyval))
    : result ParamsSet :=
  state ← fold_result ParamsSet_step items (0, []);
  Ok {| processes := state.2 |}.

(** [ParamsSet.__init__]: the keys of a dictionary are distinct. *)
Definition ParamsSet_init (data : gmap string pyval) : result ParamsSet :=
  ParamsSet_init_items (map_to_list data).

Definition ParamsSet_len (self : ParamsSet) : nat := length (processes self).

Definition ParamsSet_contains (self : ParamsSet) (value : string) : bool :=
  bool_decide (value ∈ (λ process, name (Config.value process)) <$> processes self).

Definition ParamsSet_getitem (self : ParamsSet) (key : string)
    : result Params :=
  of_option
    (Config.value <$>
       first_with (λ process, name (Config.value process)) key (processes self))
    (KeyError (key +:+ " is not in ParamsSet")).

Definition InternalParamsSet_init (data : gmap string pyval)
    : result ParamsSet :=
  ParamsSet_init data.

(** [l[i]] for a list and an integer: a negative index counts from the
    end. *)
Definition list_getitem (l : list pyval) (i : Z) : result pyval :=
  let i := if decide (i < 0)%Z then (i + Z.of_nat (length l))%Z else i in
  if decide (0 ≤ i)%Z
  then of_option (l !! Z.to_nat i) (IndexError "list index out of range")
  else Raise (IndexError "list index out of range").

(** One round of [for level in l] over a list [l]: [str(level)] and
    [l[level]].  An integer or a boolean is an index; nothing else is. *)
Definition list_level (l : list pyval) (level : pyval)
    : result (string * pyval) :=
  match level with
  | VInt i => inner ← list_getitem l i; Ok (pretty i, inner)
  | VBool b =>
      inner ← list_getitem l (if b then 1 else 0);
      Ok (if b then "True" else "False", inner)
  | _ => Raise (TypeError "list indices must be integers or slices")
  end.

(** [for level in v], each [level] as [str(level)] and with [v[level]],
    which is read when the round for [level] begins.  A dictionary gives
    its keys and their values; a string gives its characters, none of
    which is an index of it; a list gives its elements, the integers among
    which are indices of it; nothing else can be iterated over. *)
Definition levels (v : pyval) : result (list (result (string * pyval))) :=
  match v with
  | VDict d => Ok (Ok <$> map_to_list d)
  | VStr s =>
      Ok ((λ _, Raise (TypeError "string indices must be integers"))
          <$> str_chars s)
  | VList l => Ok (list_level l <$> l)
  | _ => Raise (TypeError ("'" +:+ type_name v +:+ "' object is not iterable"))
  end.

(** The flattening loop of [ExternalParamsSet.__init__]:
    [data_processed[f"{level_1}.{level_2}.{level_3}"] = ...]. *)
Definition flatten_level_3 (level_1 level_2 : string)
    (data_processed : gmap string pyval) (item : result (string * pyval))
    : result (gmap string pyval) :=
  '(level_3, definition) ← item;
  let name := level_1 +:+ "." +:+ level_2 +:+ "." +:+ level_3 in
  Ok (<[name := definition]> data_processed).

Definition flatten_level_2 (level_1 : string)
    (data_processed : gmap string pyval) (item : result (string * pyval))
    : result (gmap string pyval) :=
  '(level_2, inner) ← item;
  inner ← levels inner;
  fold_result (flatten_level_3 level_1 level_2) inner data_processed.

Definition flatten_level_1 (data_processed : gmap string pyval)
    (item : string * pyval) : result (gmap string pyval) :=
  let '(level_1, inner) := item in
  inner ← levels inner;
  fold_result (flatten_level_2 level_1) inner data_processed.

Definition ExternalParamsSet_init (data : gmap string pyval)
    : result ParamsSet :=
  data_processed ← fold_result flatten_level_1 (map_to_list data) ∅;
  ParamsSet_init data_processed.

End Construction.
End WithHash.
End Config.

(** Relations between a descriptor before and after a method, used to say
    what the method keeps. *)
Module ConfigNotions.
Import Config.

(** Every input of [s'] has the datatype of an input of [s] that accepted
    each of its formats. *)
Definition formats_narrowed (s s' : Params) : Prop :=
  ∀ i', i' ∈ input s' →
    ∃ i, i ∈ input s ∧ datatype i = datatype i' ∧
         ∀ f, f ∈ format i' → f ∈ format i.

(** [s'] has the input datatypes, the process names, the outputs, the name
    and the directories of [s]. *)
Definition names_kept (s s' : Params) : Prop :=
  (∀ dt, dt ∈ datatype <$> input s' ↔ dt ∈ datatype <$> input s) ∧
  (∀ p, p ∈ process <$> parameters s' ↔ p ∈ process <$> parameters s) ∧
  output s' = output s ∧ name s' = name s ∧ root s' = root s ∧
  env s' = env s ∧ output_location s' = output_location s.

(** [dp'] is [dp] with entries added or replaced, each of them a name and
    a value that [from] relates. *)
Definition extends_by (from : string → pyval → Prop)
    (dp dp' : gmap string pyval) : Prop :=
  (∀ nm, is_Some (dp' !! nm) ↔ is_Some (dp !! nm) ∨ ∃ v, from nm v) ∧
  (∀ nm v, dp' !! nm = Some v → dp !! nm = Some v ∨ from nm v).

End ConfigNotions.

(* ===================================================================== *)
(** * Sample data *)
(* ===================================================================== *)

Module Samples.
Import Command.

(** A machine on which every child starts and none finishes in time. *)
Definition slow_world : World :=
  {| spawn_error := λ _ _, None;
     communicate := λ _ _, Expired;
     decode_utf8 := λ _, Some EmptyString |}.

(** [Command("echo hi", profile="local")] *)
Definition echo_hi : Command :=
  {| profile := "local"; _cmd := ["echo"; "hi"]; _timeout := 1000;
     _stdout := None; _stderr := None; process := None |}.

(** [echo_hi] after [run()]. *)
Definition echo_hi_popen : Popen := {| args := ["echo"; "hi"]; cwd := None |}.
Definition echo_hi_running : Command :=
  {| profile := "local"; _cmd := ["echo"; "hi"]; _timeout := 1000;
     _stdout := None; _stderr := None; process := Some echo_hi_popen |}.

Import Config.

(** A stand-in for [hash] on strings. *)
Definition sample_hash (s : string) : Z := Z.of_nat (String.length s).

(** An installation in which every path exists and is a directory. *)
Definition installed : FileSystem :=
  {| PIPELINE_DIR := "/opt/mindpipe/pipelines";
     path_exists := λ _, Ok true;
     path_is_dir := λ _, Ok true |}.

(** Two inputs with the same datatype and different formats. *)
Definition otu_biom : Input :=
  {| datatype := "otu_table"; format := ["biom"]; location := LNone |}.
Definition otu_tsv : Input :=
  {| datatype := "otu_table"; format := ["tsv"]; location := LNone |}.

(** A stage that is ready to run. *)
Definition sparcc : Params :=
  {| name := "sparcc"; root := "/opt/mindpipe/pipelines/sparcc"; env := None;
     output_location := "/results/sparcc";
     input := [ {| datatype := "otu_table"; format := ["biom"];
                   location := LPath "/data/otu.biom" |} ];
     output := [ {| datatype := "correlation"; format := ["tsv"];
                    location := LPath "/results/sparcc/corr.tsv" |} ];
     parameters := [ {| process := "run_sparcc";
                        params := {[ "iterations" := VInt 20 ]} |} ] |}.

(** A stage with two inputs, none located yet. *)
Definition group_taxa : Params :=
  {| name := "group_taxa"; root := "/opt/mindpipe/pipelines/group"; env := None;
     output_location := "/results/group";
     input := [ {| datatype := "otu_table"; format := ["biom"; "tsv"];
                   location := LNone |};
                {| datatype := "lineage"; format := ["csv"];
                   location := LNone |} ];
     output := [ {| datatype := "otu_table"; format := ["biom"];
                    location := LPath "/results/group/otu.biom" |} ];
     parameters := [ {| process := "group";
                        params := {[ "level" := VStr "Genus" ]} |} ] |}.

(** User settings whose first input override is accepted and whose second
    asks for a format that [lineage] does not accept. *)
Definition second_override_rejected : UserSettings :=
  {| us_input :=
       [ {| ov_datatype := "otu_table"; ov_format := ["tsv"];
            ov_location := LPath "/data/otu.tsv" |};
         {| ov_datatype := "lineage"; ov_format := ["json"];
            ov_location := LPath "/data/lineage.json" |} ];
     us_parameters := [] |}.

(** User settings whose only input override is rejected. *)
Definition first_override_rejected : UserSettings :=
  {| us_input :=
       [ {| ov_datatype := "lineage"; ov_format := ["json"];
            ov_location := LPath "/data/lineage.json" |} ];
     us_parameters := [] |}.

(** User settings that override one parameter of [group]. *)
Definition group_by_family : UserSettings :=
  {| us_input := [];
     us_parameters :=
       [ {[ "process" := VStr "group"; "level" := VStr "Family" ]} ] |}.

(** User settings with two overrides for the process [group]. *)
Definition group_by_family_then_order : UserSettings :=
  {| us_input := [];
     us_parameters :=
       [ {[ "process" := VStr "group"; "level" := VStr "Family" ]};
         {[ "process" := VStr "group"; "level" := VStr "Order" ]} ] |}.

(** A stage whose input is an output of [group_taxa]. *)
Definition sparcc_unattached : Params :=
  {| name := "sparcc"; root := "/opt/mindpipe/pipelines/sparcc"; env := None;
     output_location := "/results/sparcc";
     input := [ {| datatype := "otu_table"; format := ["biom"];
                   location := LNone |} ];
     output := [ {| datatype := "correlation"; format := ["tsv"];
                    location := LPath "/results/sparcc/corr.tsv" |} ];
     parameters := [] |}.

(** A stage with two inputs of the datatype [otu_table], one of them
    already at the place where [group_taxa] puts its output. *)
Definition otu_unlocated : Input :=
  {| datatype := "otu_table"; format := ["biom"]; location := LNone |}.
Definition otu_located : Input :=
  {| datatype := "otu_table"; format := ["biom"];
     location := LPath "/results/group/otu.biom" |}.
Definition sparcc_two_otu_tables : Params :=
  {| name := "sparcc"; root := "/opt/mindpipe/pipelines/sparcc"; env := None;
     output_location := "/results/sparcc";
     input := [ otu_unlocated; otu_located ];
     output := [];
     parameters := [] |}.

(** A catalog entry with no inputs, outputs or parameters. *)
Definition bare_entry (root : string) : pyval :=
  VDict {[ "root" := VStr root; "output_location" := VStr "out";
           "input" := VList []; "output" := VList [];
           "parameters" := VList [] ]}.

(** A three-level catalog in which two definitions get the name
    [a.b.c.d]. *)
Definition colliding_catalog : gmap string pyval :=
  {[ "a.b" := VDict {[ "c" := VDict {[ "d" := bare_entry "first" ]} ]};
     "a" := VDict {[ "b.c" := VDict {[ "d" := bare_entry "second" ]} ]} ]}.

(** The items of a catalog in which the name [sparcc] comes twice. *)
Definition repeated_items : list (string * pyval) :=
  [ ("sparcc", bare_entry "first"); ("sparcc", bare_entry "second") ].

End Samples.

Module MoreSamples.
Import Command Config Samples.

(** [bytes.decode] on ASCII text; any other byte is rejected. *)
Definition decode_ascii (b : list byte) : option string :=
  if forallb (λ x, N.ltb (Byte.to_N x) 128) b
  then Some (String.string_of_list_byte b) else None.

(** A machine on which every child prints [hi] and exits in time. *)
Definition quick_world : World :=
  {| spawn_error := λ _ _, None;
     communicate := λ _ _, Exited [x68; x69] [];
     decode_utf8 := decode_ascii |}.

(** A machine on which every child prints one byte that is not UTF-8. *)
Definition garbled_world : World :=
  {| spawn_error := λ _ _, None;
     communicate := λ _ _, Exited [xff] [];
     decode_utf8 := decode_ascii |}.

(** [echo_hi_running] after a [wait] that captured [hi]. *)
Definition echo_hi_done : Command :=
  {| profile := "local"; _cmd := ["echo"; "hi"]; _timeout := 1000;
     _stdout := Some "hi"; _stderr := Some "";
     Command.process := Some echo_hi_popen |}.

(** A file system on which nothing can be opened for writing. *)
Definition read_only : string → option exn :=
  λ _, Some (OSError "Read-only file system").
Definition writable : string → option exn := λ _, None.

(** The catalog entry of a stage with one input and one output. *)
Definition sparcc_entry : gmap string pyval :=
  {[ "root" := VStr "sparcc";
     "output_location" := VStr "sparcc_out";
     "input" :=
       VList [ VDict {[ "datatype" := VStr "otu_table";
                        "format" := VList [VStr "biom"];
                        "location" := VStr "ignored.biom" ]} ];
     "output" :=
       VList [ VDict {[ "datatype" := VStr "correlation";
                        "format" := VList [VStr "tsv"];
                        "location" := VStr "corr.tsv" ]} ];
     "parameters" :=
       VList [ VDict {[ "process" := VStr "run_sparcc";
                        "iterations" := VInt 20 ]} ] ]}.

(** A flat catalog with two stages. *)
Definition small_catalog : gmap string pyval :=
  {[ "sparcc" := VDict sparcc_entry; "bare" := bare_entry "bare" ]}.

(** A three-level catalog with two stages. *)
Definition nested_catalog : gmap string pyval :=
  {[ "network" := VDict {[ "correlation" :=
        VDict {[ "sparcc" := VDict sparcc_entry;
                 "bare" := bare_entry "bare" ]} ]} ]}.

(** [sparcc_unattached] after [update_location] has been given the place
    of its input as a string. *)
Definition sparcc_at_string : Params :=
  {| name := "sparcc"; root := "/opt/mindpipe/pipelines/sparcc"; env := None;
     output_location := "/results/sparcc";
     input := [ {| datatype := "otu_table"; format := ["biom"];
                   location := LStr "/data/otu.biom" |} ];
     output := [ {| datatype := "correlation"; format := ["tsv"];
                    location := LPath "/results/sparcc/corr.tsv" |} ];
     parameters := [] |}.

(** A file system that holds the outputs of [group_taxa]. *)
Definition after_group_taxa : FileSystem :=
  {| PIPELINE_DIR := "/opt/mindpipe/pipelines";
     path_exists := λ p, Ok (bool_decide (p = "/results/group/otu.biom"));
     path_is_dir := λ _, Ok false |}.

End MoreSamples.

(* ===================================================================== *)
(** * Facts about the Python fragment *)
(* ===================================================================== *)

Module PyFacts.

Lemma str_split_nonempty sep s : str_split sep s ≠ [].
Proof.
  destruct s as [|c s]; simpl; [done|].
  case_decide; [done|]. by destruct (str_split sep s).
Qed.

Lemma str_join_cons_char sep c w ws :
  str_join sep (String c w :: ws) = String c (str_join sep (w :: ws)).
Proof. by destruct ws. Qed.

(** Splitting at a character and joining with it gives the string back. *)
Lemma str_join_split sep s :
  str_join (String sep EmptyString) (str_split sep s) = s.
Proof.
  induction s as [|c s IH]; simpl; [done|].
  case_decide as Hc.
  - subst c. pose proof (str_split_nonempty sep s) as Hne.
    destruct (str_split sep s) as [|w ws]; [done|].
    simpl in *. by rewrite IH.
  - pose proof (str_split_nonempty sep s) as Hne.
    destruct (str_split sep s) as [|w ws]; [done|].
    rewrite str_join_cons_char. by rewrite IH.
Qed.

Lemma str_join_cons_nonempty sep w ws :
  ws ≠ [] → str_join sep (w :: ws) = w +:+ sep +:+ str_join sep ws.
Proof. by destruct ws. Qed.

(** ** Sequencing of methods *)

Lemma bind_ok {S A B} (m : M S A) (f : A → M S B) s a s' :
  m s = (Ok a, s') → (m ≫= f) s = f a s'.
Proof. intros H. unfold mbind, M_bind. by rewrite H. Qed.

Lemma bind_raise {S A B} (m : M S A) (f : A → M S B) s e s' :
  m s = (Raise e, s') → (m ≫= f) s = (Raise e, s').
Proof. intros H. unfold mbind, M_bind. by rewrite H. Qed.

Lemma for_each_app_ok {S A} (xs ys : list A) (body : A → M S unit) s s' :
  for_each xs body s = (Ok tt, s') →
  for_each (xs ++ ys) body s = for_each ys body s'.
Proof.
  revert s. induction xs as [|x xs IH]; intros s; simpl.
  - by intros [= ->].
  - unfold mbind, M_bind. destruct (body x s) as [[[]|e] s1]; [|done].
    apply IH.
Qed.

(** A loop keeps whatever each round of its body keeps. *)
Lemma for_each_preserves {S A T} (proj : S → T) (xs : list A)
    (body : A → M S unit) :
  (∀ x s r s', body x s = (r, s') → proj s' = proj s) →
  ∀ s r s', for_each xs body s = (r, s') → proj s' = proj s.
Proof.
  intros Hbody. induction xs as [|x xs IH]; intros s r s'; simpl.
  - by intros [= _ ->].
  - unfold mbind, M_bind. destruct (body x s) as [[[]|e] s1] eqn:Hx.
    + intros Hrest. rewrite (IH _ _ _ Hrest). eauto.
    + intros [= _ <-]. eauto.
Qed.

(** A loop keeps a property of the state that each round keeps, also when
    it stops at an exception. *)
Lemma for_each_invariant {S A} (P : S → Prop) (xs : list A)
    (body : A → M S unit) :
  (∀ x s r s', P s → body x s = (r, s') → P s') →
  ∀ s r s', P s → for_each xs body s = (r, s') → P s'.
Proof.
  intros Hbody. induction xs as [|x xs IH]; intros s r s' Hs; simpl.
  - by intros [= _ <-].
  - unfold mbind, M_bind. destruct (body x s) as [[[]|e] s1] eqn:Hx.
    + apply IH. by eapply Hbody.
    + intros [= _ <-]. by eapply Hbody.
Qed.

Lemma forallb_false {A} (f : A → bool) (l : list A) :
  forallb f l = false → ∃ x, x ∈ l ∧ f x = false.
Proof.
  induction l as [|x l IH]; simpl; [done|].
  destruct (f x) eqn:Hx; simpl.
  - intros (y & Hy & Hfy)%IH. exists y. split; [by right|done].
  - intros _. exists x. split; [by left|done].
Qed.

(** ** [==] *)

Lemma py_eq_refl v : py_eq v v = true.
Proof. unfold py_eq. by apply bool_decide_eq_true. Qed.

End PyFacts.

(* ===================================================================== *)
(** * Properties of [Command] *)
(* ===================================================================== *)

Module CommandSpec.
Import Command Samples PyFacts.

Lemma build_local cmd_ : _build_cmd "local" cmd_ = Ok (str_split " " cmd_).
Proof. done. Qed.

Lemma build_sge cmd_ : _build_cmd "sge" cmd_ = Ok ("qsub" :: str_split " " cmd_).
Proof. done. Qed.

Lemma build_other profile cmd_ :
  profile ≠ "local" → profile ≠ "sge" →
  _build_cmd profile cmd_ =
    Raise (ValueError "Unsupported profile! Choose either 'local' or 'sge'").
Proof. intros H1 H2. unfold _build_cmd. by rewrite !decide_False. Qed.

(** C1, as the code has it.  The profile [local] gives back the command
    string (cut at every space and joined with spaces again); the profile
    that puts [qsub] in front of the command is named [sge]; every profile
    other than [local] and [sge] raises [ValueError]. *)
Theorem init_profiles (cmd_ : string) (timeout : Z) :
  (∃ c, __init__ cmd_ "local" timeout = Ok c ∧
        _cmd c = str_split " " cmd_ ∧ cmd c = cmd_) ∧
  (∃ c, __init__ cmd_ "sge" timeout = Ok c ∧
        _cmd c = "qsub" :: str_split " " cmd_ ∧ cmd c = "qsub " +:+ cmd_) ∧
  (∀ profile, profile ≠ "local" → profile ≠ "sge" →
     ∃ msg, __init__ cmd_ profile timeout = Raise (ValueError msg)).
Proof.
  split; [|split].
  - eexists. split; [reflexivity|]. split; [done|].
    unfold cmd. simpl. apply (str_join_split " ").
  - eexists. split; [reflexivity|]. split; [done|].
    unfold cmd. simpl _cmd.
    rewrite str_join_cons_nonempty by apply str_split_nonempty.
    by rewrite (str_join_split " ").
  - intros profile H1 H2. eexists. unfold __init__.
    by rewrite build_other.
Qed.

Lemma init_profiles_witness :
  ∃ msg, __init__ "echo hi" "slurm" 1000 = Raise (ValueError msg).
Proof.
  apply (init_profiles "echo hi" 1000); [vm_compute | vm_compute]; congruence.
Defined.

(** C1 as stated fails: the profile [grid] is not one the constructor
    knows, so it raises instead of giving ["qsub echo hi"]. *)
Lemma grid_profile_rejected :
  __init__ "echo hi" "grid" 1000 =
    Raise (ValueError "Unsupported profile! Choose either 'local' or 'sge'") ∧
  ¬ (∃ c, __init__ "echo hi" "grid" 1000 = Ok c ∧ cmd c = "qsub echo hi").
Proof.
  split; [reflexivity|]. intros (c & Hc & _). vm_compute in Hc. discriminate.
Qed.

Section Lifecycle.
Variable W : World.

(** A command on which [run] was never called has no process handle and
    no captured output. *)
Lemma never_run_unset c :
  never_run W c → process c = None ∧ _stdout c = None ∧ _stderr c = None.
Proof.
  induction 1 as [cmd_ profile timeout self Hinit
                 |cmd_ self r self' _ IH Hupd
                 |self r self' _ IH Hwait
                 |self r self' _ IH Hout
                 |self r self' _ IH Herr].
  - unfold __init__ in Hinit.
    destruct (_build_cmd profile cmd_); simpl in Hinit; [|done].
    by injection Hinit as <-.
  - destruct IH as (Hp & Ho & He). unfold update in Hupd.
    destruct (_build_cmd (profile self) cmd_) as [built|e].
    + simpl in Hupd. rewrite Hp in Hupd. by injection Hupd as _ <-.
    + by injection Hupd as _ <-.
  - destruct IH as (Hp & Ho & He). unfold wait in Hwait.
    rewrite Hp in Hwait. by injection Hwait as _ <-.
  - destruct IH as (Hp & Ho & He). unfold output in Hout.
    rewrite Hp, Ho in Hout. by injection Hout as _ <-.
  - destruct IH as (Hp & Ho & He). unfold error in Herr.
    rewrite Hp, He in Herr. by injection Herr as _ <-.
Qed.

(** C8.  When the child of a launched command does not finish within the
    time limit, [wait] raises the timeout error and the command is in the
    state it was in before the call: captured output that was unset is
    still unset. *)
Theorem wait_timeout (c : Command) (p : Popen) :
  process c = Some p →
  communicate W p (_timeout c) = Expired →
  wait W c = (Raise TimeoutExpired, c) ∧
  (_stdout c = None → _stdout (wait W c).2 = None) ∧
  (_stderr c = None → _stderr (wait W c).2 = None).
Proof.
  intros Hp Hexp.
  assert (wait W c = (Raise TimeoutExpired, c)) as Hw.
  { unfold wait. rewrite Hp. unfold mbind, M_bind, do_communicate.
    by rewrite Hexp. }
  rewrite Hw. done.
Qed.

(** C9.  On a command that was never launched [wait] returns normally and
    changes nothing, while [output] and [error] raise. *)
Theorem wait_never_run (c : Command) :
  never_run W c →
  wait W c = (Ok tt, c) ∧
  _stdout c = None ∧ _stderr c = None ∧
  (∃ msg, output W c = (Raise (NotImplementedError msg), c)) ∧
  (∃ msg, error W c = (Raise (NotImplementedError msg), c)).
Proof.
  intros (Hp & Ho & He)%never_run_unset.
  unfold wait, output, error. rewrite Hp, Ho, He. eauto 10.
Qed.

(** C10.  [proc_cmd_sync] raises [AttributeError] on a command that was
    never launched; it gives a boolean exactly when there is a process
    handle, and [True] right after [run]. *)
Theorem proc_cmd_sync_partial (c : Command) :
  (never_run W c → ∃ msg, proc_cmd_sync c = Raise (AttributeError msg)) ∧
  ((∃ b, proc_cmd_sync c = Ok b) ↔ is_Some (process c)) ∧
  (∀ cwd p c', run W cwd c = (Ok p, c') → proc_cmd_sync c' = Ok true).
Proof.
  split; [|split].
  - intros (Hp & _)%never_run_unset. unfold proc_cmd_sync. rewrite Hp. eauto.
  - unfold proc_cmd_sync. split.
    + intros [b Hb]. destruct (process c); [eauto|done].
    + intros [p ->]. case_decide; eauto.
  - intros cwd p c'. unfold run.
    destruct (spawn_error W (_cmd c) cwd); [done|].
    intros [= <- <-]. unfold proc_cmd_sync. simpl. by rewrite decide_True.
Qed.

End Lifecycle.

Lemma wait_timeout_witness :
  wait slow_world echo_hi_running = (Raise TimeoutExpired, echo_hi_running) ∧
  (_stdout echo_hi_running = None →
   _stdout (wait slow_world echo_hi_running).2 = None) ∧
  (_stderr echo_hi_running = None →
   _stderr (wait slow_world echo_hi_running).2 = None).
Proof.
  apply (wait_timeout slow_world echo_hi_running echo_hi_popen); reflexivity.
Defined.

Lemma wait_never_run_witness :
  wait slow_world echo_hi = (Ok tt, echo_hi) ∧
  _stdout echo_hi = None ∧ _stderr echo_hi = None ∧
  (∃ msg, output slow_world echo_hi = (Raise (NotImplementedError msg), echo_hi)) ∧
  (∃ msg, error slow_world echo_hi = (Raise (NotImplementedError msg), echo_hi)).
Proof.
  apply (wait_never_run slow_world echo_hi).
  apply (never_run_init slow_world "echo hi" "local" 1000). reflexivity.
Defined.

Lemma proc_cmd_sync_partial_witness :
  ∃ msg, proc_cmd_sync echo_hi = Raise (AttributeError msg).
Proof.
  apply (proc_cmd_sync_partial slow_world echo_hi).
  apply (never_run_init slow_world "echo hi" "local" 1000). reflexivity.
Defined.

End CommandSpec.

(* ===================================================================== *)
(** * Facts about sets, lookups and dictionaries *)
(* ===================================================================== *)

Module SetFacts.
Import Config.

Section Leibniz.
Context {A : Type} `{EqDecision A} (hash : A → Z).

Local Abbreviation eqb := (λ x y : A, bool_decide (x = y)).

(** With [==] that is structural equality, the hash decides nothing:
    equal objects have equal hashes. *)
Lemma same_true x y : same hash eqb x y = true ↔ y = x.
Proof.
  unfold same. rewrite andb_true_iff, !bool_decide_eq_true.
  split; [by intros [_ ?]|by intros ->].
Qed.

Lemma same_false x y : same hash eqb x y = false ↔ y ≠ x.
Proof.
  rewrite <-not_true_iff_false, same_true. done.
Qed.

Lemma set_contains_elem x s : set_contains hash eqb x s = true ↔ x ∈ s.
Proof.
  unfold set_contains. rewrite existsb_exists. split.
  - intros (y & Hy & ->%same_true). by apply list_elem_of_In.
  - intros Hx. exists x. split; [by apply list_elem_of_In|by apply same_true].
Qed.

Lemma set_add_new x s : x ∉ s → set_add hash eqb x s = s ++ [x].
Proof.
  intros Hx. unfold set_add.
  destruct (set_contains hash eqb x s) eqn:Hc; [|done].
  by apply set_contains_elem in Hc.
Qed.

Lemma set_add_old x s : x ∈ s → set_add hash eqb x s = s.
Proof.
  intros Hx. unfold set_add. by rewrite (proj2 (set_contains_elem x s) Hx).
Qed.

Lemma set_add_elem x y s : y ∈ set_add hash eqb x s ↔ y = x ∨ y ∈ s.
Proof.
  destruct (decide (x ∈ s)) as [Hx|Hx].
  - rewrite set_add_old by done. naive_solver.
  - rewrite set_add_new by done. rewrite elem_of_app, list_elem_of_singleton.
    naive_solver.
Qed.

Lemma set_add_length x s :
  length (set_add hash eqb x s) = if decide (x ∈ s) then length s else S (length s).
Proof.
  case_decide.
  - by rewrite set_add_old.
  - rewrite set_add_new by done. rewrite length_app. simpl. lia.
Qed.

Lemma set_discard_head x s : set_discard hash eqb x (x :: s) = s.
Proof. simpl. by rewrite (proj2 (same_true x x)). Qed.

Lemma set_discard_other x y s :
  y ≠ x → set_discard hash eqb x (y :: s) = y :: set_discard hash eqb x s.
Proof. intros Hy. simpl. by rewrite (proj2 (same_false x y)). Qed.

Lemma set_discard_subset x y s : y ∈ set_discard hash eqb x s → y ∈ s.
Proof.
  induction s as [|z s IH]; simpl; [done|].
  destruct (same hash eqb x z).
  - intros. by right.
  - rewrite !elem_of_cons. naive_solver.
Qed.

Lemma set_discard_keeps x y s :
  y ≠ x → y ∈ s → y ∈ set_discard hash eqb x s.
Proof.
  intros Hy. induction s as [|z s IH]; simpl; [done|].
  destruct (same hash eqb x z) eqn:Hz.
  - apply same_true in Hz as ->. rewrite elem_of_cons. naive_solver.
  - rewrite !elem_of_cons. naive_solver.
Qed.

Lemma set_remove_elem x s :
  x ∈ s → set_remove hash eqb x s = Ok (set_discard hash eqb x s).
Proof.
  intros Hx. unfold set_remove.
  by rewrite (proj2 (set_contains_elem x s) Hx).
Qed.

Lemma set_discard_perm x s : x ∈ s → s ≡ₚ x :: set_discard hash eqb x s.
Proof.
  induction s as [|y s IH]; [by intros ?%elem_of_nil|].
  destruct (decide (y = x)) as [->|Hy].
  - intros _. by rewrite set_discard_head.
  - intros [?|Hx]%elem_of_cons; [congruence|].
    rewrite set_discard_other by done.
    rewrite (IH Hx) at 1. apply Permutation_swap.
Qed.

End Leibniz.

Lemma NoDup_rotate {A} (x : A) (l1 l2 : list A) :
  NoDup (x :: l1 ++ l2) → NoDup (l1 ++ l2 ++ [x]).
Proof.
  intros H. by rewrite app_assoc, <-Permutation_cons_append.
Qed.

(** ** [first_with] *)

Section FirstWith.
Context {A : Type} (attr : A → string).

Lemma first_with_Some nm l x :
  first_with attr nm l = Some x → x ∈ l ∧ attr x = nm.
Proof.
  induction l as [|y l IH]; simpl; [done|].
  case_decide.
  - intros [= ->]. split; [by left|done].
  - intros [??]%IH. split; [by right|done].
Qed.

Lemma first_with_None nm l :
  first_with attr nm l = None ↔ nm ∉ attr <$> l.
Proof.
  induction l as [|y l IH]; simpl.
  - split; [|done]. intros _. apply not_elem_of_nil.
  - rewrite not_elem_of_cons. case_decide; naive_solver.
Qed.

Lemma first_with_is_Some nm l :
  is_Some (first_with attr nm l) ↔ nm ∈ attr <$> l.
Proof.
  rewrite <-not_eq_None_Some, first_with_None.
  destruct (decide (nm ∈ attr <$> l)); naive_solver.
Qed.

Lemma first_with_head x l : first_with attr (attr x) (x :: l) = Some x.
Proof. simpl. by rewrite decide_True. Qed.

Lemma first_with_app_l nm l1 l2 x :
  first_with attr nm l1 = Some x → first_with attr nm (l1 ++ l2) = Some x.
Proof.
  induction l1 as [|y l1 IH]; simpl; [done|]. case_decide; auto.
Qed.

Lemma first_with_app_r nm l1 l2 :
  nm ∉ attr <$> l1 → first_with attr nm (l1 ++ l2) = first_with attr nm l2.
Proof.
  induction l1 as [|y l1 IH]; simpl; [done|].
  rewrite not_elem_of_cons. intros [? ?]. rewrite decide_False by done. auto.
Qed.

(** When no two elements have the same attribute, a lookup by attribute
    finds the element whatever the order of the list. *)
Lemma first_with_unique x l :
  NoDup (attr <$> l) → x ∈ l → first_with attr (attr x) l = Some x.
Proof.
  induction l as [|y l IH]; simpl; [by intros _ ?%elem_of_nil|].
  rewrite NoDup_cons. intros [Hy Hl] [->|Hx]%elem_of_cons.
  - by rewrite decide_True.
  - rewrite decide_False; [auto|].
    intros Heq. apply Hy. rewrite Heq. by apply list_elem_of_fmap_2.
Qed.

Lemma first_with_snoc_other nm l u :
  attr u ≠ nm → first_with attr nm (l ++ [u]) = first_with attr nm l.
Proof.
  intros Hu. induction l as [|y l IH]; simpl.
  - by rewrite decide_False.
  - case_decide; auto.
Qed.

End FirstWith.

Section FirstWithSet.
Context {A : Type} `{EqDecision A} (hash : A → Z) (attr : A → string).

Local Abbreviation eqb := (λ x y : A, bool_decide (x = y)).

Lemma first_with_discard_other nm x l :
  attr x ≠ nm →
  first_with attr nm (set_discard hash eqb x l) = first_with attr nm l.
Proof.
  intros Hx. induction l as [|y l IH]; simpl; [done|].
  destruct (same hash eqb x y) eqn:Hy; simpl.
  - apply same_true in Hy as ->. by rewrite decide_False.
  - case_decide; auto.
Qed.

Lemma first_with_add_other nm x l :
  attr x ≠ nm →
  first_with attr nm (set_add hash eqb x l) = first_with attr nm l.
Proof.
  intros Hx. destruct (decide (x ∈ l)).
  - by rewrite set_add_old.
  - rewrite set_add_new by done. by apply first_with_snoc_other.
Qed.

(** Replacing an element by one with the same attribute keeps the
    attributes of the set. *)
Lemma replace_attrs x u l :
  x ∈ l → attr u = attr x →
  ∀ nm, nm ∈ attr <$> set_add hash eqb u (set_discard hash eqb x l)
        ↔ nm ∈ attr <$> l.
Proof.
  intros Hx Hu nm. rewrite !list_elem_of_fmap.
  setoid_rewrite (set_add_elem hash).
  split.
  - intros (y & -> & [->|Hy]).
    + exists x. by split.
    + exists y. split; [done|]. by eapply set_discard_subset.
  - intros (y & -> & Hy). destruct (decide (y = x)) as [->|Hne].
    + exists u. split; [done|]. by left.
    + exists y. split; [done|]. right. by apply set_discard_keeps.
Qed.

Lemma replace_NoDup x u l :
  NoDup (attr <$> l) → x ∈ l → attr u = attr x →
  set_add hash eqb u (set_discard hash eqb x l)
    = set_discard hash eqb x l ++ [u] ∧
  NoDup (attr <$> (set_discard hash eqb x l ++ [u])).
Proof.
  intros Hnd Hx Hu.
  pose proof (set_discard_perm hash x l Hx) as Hperm.
  assert (NoDup (attr x :: (attr <$> set_discard hash eqb x l))) as Hnd'.
  { rewrite <-fmap_cons. by rewrite <-Hperm. }
  apply NoDup_cons in Hnd' as [Hnotin Hnd'].
  split.
  - apply set_add_new. intros Hin. apply Hnotin. rewrite <-Hu.
    by apply list_elem_of_fmap_2.
  - rewrite fmap_app. simpl. apply NoDup_app. split; [done|].
    split; [|apply NoDup_singleton].
    intros nm Hnm ->%list_elem_of_singleton. apply Hnotin. by rewrite <-Hu.
Qed.

Lemma discard_attr_fresh x l :
  NoDup (attr <$> l) → x ∈ l → attr x ∉ attr <$> set_discard hash eqb x l.
Proof.
  intros Hnd Hx.
  pose proof (set_discard_perm hash x l Hx) as Hperm.
  assert (NoDup (attr x :: (attr <$> set_discard hash eqb x l))) as Hnd'.
  { rewrite <-fmap_cons. by rewrite <-Hperm. }
  by apply NoDup_cons in Hnd' as [? _].
Qed.

End FirstWithSet.

(** ** Sets whose [==] is not equality of values

    What follows asks of [==] only that it holds between an object and
    itself, and that objects it equates have the same key. *)

Section Keyed.
Context {A : Type} (hash : A → Z) (eq : A → A → bool) (attr : A → string).
Context (eq_self : ∀ x, eq x x = true).
Context (eq_attr : ∀ x y, eq x y = true → attr x = attr y).

Lemma keyed_same_self x : same hash eq x x = true.
Proof using eq_self.
  unfold same. rewrite eq_self. by rewrite bool_decide_eq_true_2.
Qed.

Lemma keyed_same_attr x y : same hash eq x y = true → attr y = attr x.
Proof using eq_attr.
  unfold same. intros [_ Heq]%andb_true_iff. by apply eq_attr.
Qed.

Lemma keyed_contains x s : x ∈ s → set_contains hash eq x s = true.
Proof using eq_self.
  intros Hx. unfold set_contains. apply existsb_exists. exists x.
  split; [by apply list_elem_of_In|apply keyed_same_self].
Qed.

Lemma keyed_remove x s :
  x ∈ s → set_remove hash eq x s = Ok (set_discard hash eq x s).
Proof using eq_self.
  intros Hx. unfold set_remove. by rewrite keyed_contains.
Qed.

Lemma keyed_discard_subset x y s : y ∈ set_discard hash eq x s → y ∈ s.
Proof.
  induction s as [|z s IH]; simpl; [done|].
  destruct (same hash eq x z).
  - intros. by right.
  - rewrite !elem_of_cons. naive_solver.
Qed.

Lemma keyed_discard_other x y s :
  attr y ≠ attr x → y ∈ s → y ∈ set_discard hash eq x s.
Proof using eq_attr.
  intros Hy. induction s as [|z s IH]; simpl; [done|].
  destruct (same hash eq x z) eqn:Hz.
  - apply keyed_same_attr in Hz. rewrite elem_of_cons.
    intros [->|?]; [done|done].
  - rewrite !elem_of_cons. naive_solver.
Qed.

Lemma keyed_add_subset u y s : y ∈ set_add hash eq u s → y = u ∨ y ∈ s.
Proof.
  unfold set_add. destruct (set_contains hash eq u s); [by right|].
  rewrite elem_of_app, list_elem_of_singleton. naive_solver.
Qed.

Lemma keyed_add_keeps u y s : y ∈ s → y ∈ set_add hash eq u s.
Proof.
  unfold set_add. destruct (set_contains hash eq u s); [done|].
  rewrite elem_of_app. by left.
Qed.

Lemma keyed_add_attrs u s nm :
  nm ∈ attr <$> set_add hash eq u s ↔ nm = attr u ∨ nm ∈ attr <$> s.
Proof using eq_attr.
  unfold set_add. destruct (set_contains hash eq u s) eqn:Hc.
  - split; [by right|]. intros [->|?]; [|done].
    unfold set_contains in Hc. apply existsb_exists in Hc as (y & Hy & Hsame).
    apply keyed_same_attr in Hsame as <-.
    apply list_elem_of_fmap_2. by apply list_elem_of_In.
  - rewrite fmap_app, elem_of_app. simpl. rewrite list_elem_of_singleton.
    naive_solver.
Qed.

(** Replacing an element by one with the same key keeps the keys of the
    set. *)
Lemma keyed_replace_attrs x u l :
  x ∈ l → attr u = attr x →
  ∀ nm, nm ∈ attr <$> set_add hash eq u (set_discard hash eq x l)
        ↔ nm ∈ attr <$> l.
Proof using eq_attr.
  intros Hx Hu nm. rewrite keyed_add_attrs. rewrite !list_elem_of_fmap. split.
  - intros [->|(y & -> & Hy)].
    + exists x. by split.
    + exists y. split; [done|]. by eapply keyed_discard_subset.
  - intros (y & -> & Hy). destruct (decide (attr y = attr x)) as [Heq|Hne].
    + left. congruence.
    + right. exists y. split; [done|]. by apply keyed_discard_other.
Qed.

Lemma keyed_first_with_discard_other nm x l :
  attr x ≠ nm →
  first_with attr nm (set_discard hash eq x l) = first_with attr nm l.
Proof using eq_attr.
  intros Hx. induction l as [|y l IH]; simpl; [done|].
  destruct (same hash eq x y) eqn:Hy; simpl.
  - apply keyed_same_attr in Hy. rewrite decide_False; [done|congruence].
  - case_decide; auto.
Qed.

Lemma keyed_first_with_add_other nm x l :
  attr x ≠ nm →
  first_with attr nm (set_add hash eq x l) = first_with attr nm l.
Proof.
  intros Hx. unfold set_add. destruct (set_contains hash eq x l); [done|].
  by apply first_with_snoc_other.
Qed.

(** With distinct keys, [discard] takes out the object it is given and no
    other, and an object with the key of the one taken out is new to what
    is left. *)
Lemma keyed_discard_perm x l :
  NoDup (attr <$> l) → x ∈ l → l ≡ₚ x :: set_discard hash eq x l.
Proof using eq_self eq_attr.
  induction l as [|y l IH]; [by intros _ ?%elem_of_nil|].
  rewrite fmap_cons, NoDup_cons. intros [Hy Hnd] Hx. simpl.
  destruct (same hash eq x y) eqn:Hsame.
  - apply keyed_same_attr in Hsame.
    apply elem_of_cons in Hx as [->|Hx]; [done|].
    destruct Hy. rewrite Hsame. by apply list_elem_of_fmap_2.
  - apply elem_of_cons in Hx as [->|Hx].
    + by rewrite keyed_same_self in Hsame.
    + rewrite (IH Hnd Hx) at 1. apply Permutation_swap.
Qed.

Lemma keyed_discard_attr_fresh x l :
  NoDup (attr <$> l) → x ∈ l → attr x ∉ attr <$> set_discard hash eq x l.
Proof using eq_self eq_attr.
  intros Hnd Hx.
  pose proof (keyed_discard_perm x l Hnd Hx) as Hperm.
  assert (NoDup (attr x :: (attr <$> set_discard hash eq x l))) as Hnd'.
  { rewrite <-fmap_cons. by rewrite <-Hperm. }
  by apply NoDup_cons in Hnd' as [? _].
Qed.

Lemma keyed_replace_NoDup x u l :
  NoDup (attr <$> l) → x ∈ l → attr u = attr x →
  set_add hash eq u (set_discard hash eq x l)
    = set_discard hash eq x l ++ [u] ∧
  NoDup (attr <$> (set_discard hash eq x l ++ [u])).
Proof using eq_self eq_attr.
  intros Hnd Hx Hu.
  pose proof (keyed_discard_perm x l Hnd Hx) as Hperm.
  pose proof (keyed_discard_attr_fresh x l Hnd Hx) as Hnotin.
  assert (NoDup (attr <$> set_discard hash eq x l)) as Hnd'.
  { assert (NoDup (attr x :: (attr <$> set_discard hash eq x l))) as H.
    { rewrite <-fmap_cons. by rewrite <-Hperm. }
    by apply NoDup_cons in H as [_ ?]. }
  split.
  - unfold set_add.
    destruct (set_contains hash eq u (set_discard hash eq x l)) eqn:Hc; [|done].
    unfold set_contains in Hc. apply existsb_exists in Hc as (y & Hy & Hsame).
    apply keyed_same_attr in Hsame. destruct Hnotin. rewrite <-Hu, <-Hsame.
    apply list_elem_of_fmap_2. by apply list_elem_of_In.
  - rewrite fmap_app. simpl. apply NoDup_app. split; [done|].
    split; [|apply NoDup_singleton].
    intros nm Hnm ->%list_elem_of_singleton. apply Hnotin. by rewrite <-Hu.
Qed.

End Keyed.

(** ** Dictionaries built by repeated assignment *)

Section Assign.
Context {A V : Type} (f : A → string) (g : A → V).

Lemma assign_dom (l : list A) (d : gmap string V) :
  dom (foldl (λ d x, <[f x := g x]> d) d l) = dom d ∪ list_to_set (f <$> l).
Proof.
  revert d. induction l as [|x l IH]; intros d; simpl.
  - set_solver.
  - rewrite IH, dom_insert_L. set_solver.
Qed.

Lemma assign_lookup_other (l : list A) (d : gmap string V) k :
  k ∉ f <$> l → foldl (λ d x, <[f x := g x]> d) d l !! k = d !! k.
Proof.
  revert d. induction l as [|x l IH]; intros d; simpl; [done|].
  rewrite not_elem_of_cons. intros [Hk Hl].
  rewrite IH by done. by rewrite lookup_insert_ne.
Qed.

Lemma assign_lookup (l : list A) (d : gmap string V) k :
  k ∈ f <$> l →
  ∃ x, x ∈ l ∧ f x = k ∧ foldl (λ d x, <[f x := g x]> d) d l !! k = Some (g x).
Proof.
  revert d. induction l as [|x l IH]; intros d; simpl.
  - by intros ?%elem_of_nil.
  - intros Hk. destruct (decide (k ∈ f <$> l)) as [Hl|Hl].
    + destruct (IH (<[f x := g x]> d) Hl) as (y & Hy & Hfy & Hlook).
      exists y. split; [by right|done].
    + apply elem_of_cons in Hk as [->|Hk]; [|done].
      exists x. split; [by left|]. split; [done|].
      rewrite assign_lookup_other by done. by rewrite lookup_insert_eq.
Qed.

End Assign.

Lemma dict_of_dom {V} (items : list (string * V)) :
  dom (dict_of items) = list_to_set (items.*1).
Proof.
  unfold dict_of. rewrite (assign_dom fst snd). set_solver.
Qed.

Lemma dict_of_lookup {V} (items : list (string * V)) k v :
  dict_of items !! k = Some v → (k, v) ∈ items.
Proof.
  intros Hk. destruct (decide (k ∈ items.*1)) as [Hin|Hin].
  - destruct (assign_lookup fst snd items ∅ k Hin) as ([k' v'] & Hx & Hf & Hl).
    simpl in *. subst k'. unfold dict_of in Hk. rewrite Hk in Hl.
    by injection Hl as ->.
  - unfold dict_of in Hk. rewrite (assign_lookup_other fst snd) in Hk by done.
    by rewrite lookup_empty in Hk.
Qed.

End SetFacts.

(* ===================================================================== *)
(** * Properties of [Params] and [ParamsSet] *)
(* ===================================================================== *)

Module ConfigSpec.
Import Config Samples SetFacts.

(** ** Identity of [Input] and [Output] *)

Section Identity.
Variable hash_str : string → Z.

Lemma io_add_elem (x y : IOType) s :
  y ∈ io_add hash_str x s ↔ y = x ∨ y ∈ s.
Proof. apply set_add_elem. Qed.


End Identity.



(** ** [verify_io] and [dict] *)

Section Materialize.
Variable fs : FileSystem.

Lemma check_all_ok {A} (check : A → result unit) xs :
  check_all check xs = Ok tt ↔ ∀ x, x ∈ xs → check x = Ok tt.
Proof.
  induction xs as [|x xs IH]; simpl.
  - split; [|done]. by intros _ x ?%elem_of_nil.
  - unfold mbind, result_bind. split.
    + destruct (check x) as [[]|] eqn:Hx; [|done].
      intros Hall y [->|Hy]%elem_of_cons; [done|]. by apply IH.
    + intros Hall. rewrite (Hall x) by (by left).
      apply IH. intros y Hy. apply Hall. by right.
Qed.

Lemma verify_input_ok e :
  verify_input fs e = Ok tt ↔
  ∃ loc, location e = LPath loc ∧ path_exists fs loc = Ok true.
Proof.
  unfold verify_input, mbind, result_bind.
  destruct (location e) as [|loc|s];
    [by (split; [|intros (? & ? & _)])| |by (split; [|intros (? & ? & _)])].
  destruct (path_exists fs loc) as [[]|] eqn:Hex;
    (split; [intros ?; simplify_eq; eauto
            |intros (? & ? & ?); simplify_eq; first [done|congruence]]).
Qed.

Lemma verify_output_ok e :
  verify_output e = Ok tt ↔
  ∃ loc, location e = LPath loc ∧ is_absolute loc = true.
Proof.
  unfold verify_output.
  destruct (location e) as [|loc|s];
    [by (split; [|intros (? & ? & _)])| |by (split; [|intros (? & ? & _)])].
  destruct (is_absolute loc) eqn:Habs;
    (split; [intros ?; simplify_eq; eauto|intros (? & [= <-] & ?); congruence]).
Qed.

Lemma verify_io_ok self :
  verify_io fs self = Ok tt ↔
  is_absolute (output_location self) = true ∧
  (∀ e, e ∈ input self →
     ∃ loc, location e = LPath loc ∧ path_exists fs loc = Ok true) ∧
  (∀ e, e ∈ output self →
     ∃ loc, location e = LPath loc ∧ is_absolute loc = true).
Proof.
  unfold verify_io, mbind, result_bind.
  destruct (is_absolute (output_location self)); [|naive_solver].
  destruct (check_all (verify_input fs) (input self)) as [[]|e] eqn:Hin.
  - rewrite check_all_ok in Hin. rewrite check_all_ok. split.
    + intros Hout. split; [done|]. split.
      * intros e He. by apply verify_input_ok, Hin.
      * intros e He. by apply verify_output_ok, Hout.
    + intros (_ & _ & Hout) e He. by apply verify_output_ok, Hout.
  - split; [done|]. intros (_ & Hi & _).
    assert (check_all (verify_input fs) (input self) = Ok tt) as Hok;
      [|by rewrite Hok in Hin].
    apply check_all_ok. intros x Hx. by apply verify_input_ok, Hi.
Qed.

(** The dictionary that maps each datatype to [str(location)]. *)
Lemma io_dict_spec (ios : list IOType) :
  (∀ e, e ∈ ios → ∃ loc, location e = LPath loc) →
  dom (dict_of ((λ elem, (datatype elem, VStr (str_location (location elem))))
                <$> ios)) = list_to_set (datatype <$> ios) ∧
  ∀ dt v,
    dict_of ((λ elem, (datatype elem, VStr (str_location (location elem))))
             <$> ios) !! dt = Some v →
    ∃ e loc, e ∈ ios ∧ datatype e = dt ∧ location e = LPath loc ∧ v = VStr loc.
Proof.
  intros Hloc. split.
  - rewrite dict_of_dom. by rewrite <-list_fmap_compose.
  - intros dt v (e & [= -> ->] & He)%dict_of_lookup%list_elem_of_fmap.
    destruct (Hloc e He) as [loc Hl].
    exists e, loc. by rewrite Hl.
Qed.

(** C3, as the code has it.  For a descriptor that passes [verify_io],
    [dict] returns a mapping whose top-level keys are [input], [output],
    [output_dir] and the process names of the parameter records.  Unless
    a process has that name, [input] holds a mapping whose keys are the
    input datatypes, each with the location of an input of that datatype
    as a string, [output] holds the same for the outputs, and [output_dir]
    holds the output location; each process name holds the param map of a
    parameter record with that name. *)
Theorem dict_keys (self : Params) :
  verify_io fs self = Ok tt →
  ∃ data : gmap string pyval,
    dict fs self = Ok data ∧
    dom data = {[ "input"; "output"; "output_dir" ]}
               ∪ list_to_set (process <$> parameters self) ∧
    ("input" ∉ process <$> parameters self →
     ∃ ins : gmap string pyval,
       data !! "input" = Some (VDict ins) ∧
       dom ins = list_to_set (datatype <$> input self) ∧
       ∀ dt v, ins !! dt = Some v →
         ∃ e loc, e ∈ input self ∧ datatype e = dt ∧
                  location e = LPath loc ∧ v = VStr loc) ∧
    ("output" ∉ process <$> parameters self →
     ∃ outs : gmap string pyval,
       data !! "output" = Some (VDict outs) ∧
       dom outs = list_to_set (datatype <$> output self) ∧
       ∀ dt v, outs !! dt = Some v →
         ∃ e loc, e ∈ output self ∧ datatype e = dt ∧
                  location e = LPath loc ∧ v = VStr loc) ∧
    ("output_dir" ∉ process <$> parameters self →
     data !! "output_dir" = Some (VPath (output_location self))) ∧
    (∀ nm, nm ∈ process <$> parameters self →
       ∃ p, p ∈ parameters self ∧ process p = nm ∧
            data !! nm = Some (VDict (params p))).
Proof.
  intros Hv. pose proof Hv as (_ & Hin & Hout)%verify_io_ok.
  unfold dict. rewrite Hv. simpl. eexists. split; [reflexivity|].
  split; [|split; [|split; [|split]]].
  - rewrite (assign_dom process (λ p, VDict (params p))).
    rewrite !dom_insert_L, dom_empty_L. set_solver.
  - intros Hnm. eexists. split; [|apply io_dict_spec].
    + rewrite (assign_lookup_other process (λ p, VDict (params p))) by done.
      rewrite !lookup_insert_ne by done. by rewrite lookup_insert_eq.
    + intros e He. destruct (Hin e He) as (loc & -> & _). eauto.
  - intros Hnm. eexists. split; [|apply io_dict_spec].
    + rewrite (assign_lookup_other process (λ p, VDict (params p))) by done.
      rewrite lookup_insert_ne by done. by rewrite lookup_insert_eq.
    + intros e He. destruct (Hout e He) as (loc & -> & _). eauto.
  - intros Hnm.
    rewrite (assign_lookup_other process (λ p, VDict (params p))) by done.
    by rewrite lookup_insert_eq.
  - intros nm Hnm.
    apply (assign_lookup process (λ p, VDict (params p))). done.
Qed.

End Materialize.

Lemma dict_keys_witness :
  ∃ data : gmap string pyval,
    dict installed sparcc = Ok data ∧
    dom data = {[ "input"; "output"; "output_dir" ]}
               ∪ list_to_set (process <$> parameters sparcc).
Proof.
  destruct (dict_keys installed sparcc) as (data & Hd & Hdom & _).
  - reflexivity.
  - exists data. by split.
Defined.

(** C3 as stated fails: the datatypes are not top-level keys.  For a stage
    with the input [otu_table] and the output [correlation], the mapping
    has no key [otu_table]; its keys are [input], [output], [output_dir]
    and the process name. *)
Lemma datatypes_not_top_level :
  verify_io installed sparcc = Ok tt ∧
  ∃ data : gmap string pyval,
    dict installed sparcc = Ok data ∧
    data !! "otu_table" = None ∧
    data !! "correlation" = None ∧
    dom data ≠
      list_to_set (datatype <$> input sparcc)
      ∪ list_to_set (datatype <$> output sparcc)
      ∪ {[ "output_dir" ]}
      ∪ list_to_set (process <$> parameters sparcc).
Proof.
  split; [reflexivity|].
  eexists. split; [reflexivity|].
  split; [by vm_compute|]. split; [by vm_compute|].
  intros Heq.
  apply (f_equal (λ X : gset string, bool_decide ("otu_table" ∈ X))) in Heq.
  by vm_compute in Heq.
Qed.

(** ** [merge] *)

(** [==] on parameter records holds between a record and itself, and the
    records it equates have the same process name. *)
Lemma Parameters_eq_self p : Parameters_eq p p = true.
Proof.
  unfold Parameters_eq. rewrite PyFacts.py_eq_refl.
  by rewrite bool_decide_eq_true_2.
Qed.

Lemma Parameters_eq_process x y :
  Parameters_eq x y = true → process x = process y.
Proof.
  unfold Parameters_eq. by intros [?%bool_decide_eq_true _]%andb_true_iff.
Qed.

Lemma filter_none {A} (P : A → Prop) `{∀ x, Decision (P x)} (l : list A) :
  (∀ x, x ∈ l → ¬ P x) → filter P l = [].
Proof.
  induction l as [|x l IH]; intros Hl; [done|].
  rewrite filter_cons_False by (apply Hl; by left).
  apply IH. intros y Hy. apply Hl. by right.
Qed.

Section Merge.
Variable hash_str : string → Z.

Ltac run_method H :=
  unfold mbind, M_bind, lift, raise, mret, M_ret,
    remove_from_input, add_to_input, remove_from_output, add_to_output,
    remove_from_parameters, add_to_parameters in H;
  unfold modify in H;
  repeat case_match; simplify_eq.

Lemma merge_input_beside x s r s' :
  merge_input hash_str x s = (r, s') → beside_input s' = beside_input s.
Proof. intros H. unfold merge_input in H. run_method H; done. Qed.

Lemma merge_parameters_beside o s r s' :
  merge_parameters hash_str o s = (r, s') →
  beside_parameters s' = beside_parameters s.
Proof. intros H. unfold merge_parameters in H. run_method H; done. Qed.

Lemma merge_inputs_beside xs s r s' :
  for_each xs (merge_input hash_str) s = (r, s') →
  beside_input s' = beside_input s.
Proof.
  apply (PyFacts.for_each_preserves beside_input).
  apply merge_input_beside.
Qed.

(** What one input override does, in each of its three outcomes. *)
Lemma merge_input_cases ov s r s' :
  merge_input hash_str ov s = (r, s') →
  (first_with datatype (ov_datatype ov) (input s) = None ∧
   (∃ msg, r = Raise (KeyError msg)) ∧ s' = s) ∨
  (∃ item,
     first_with datatype (ov_datatype ov) (input s) = Some item ∧
     (∃ f, f ∈ ov_format ov ∧ f ∉ format item) ∧
     r = Raise (ValueError "not a supported format") ∧ s' = s) ∨
  (∃ item,
     first_with datatype (ov_datatype ov) (input s) = Some item ∧
     (∀ f, f ∈ ov_format ov → f ∈ format item) ∧
     r = Ok tt ∧
     s' = set_input
            (io_add hash_str
               {| datatype := datatype item; format := ov_format ov;
                  location := ov_location ov |}
               (set_discard (IOType_hash hash_str) IOType_eq item (input s)))
            s).
Proof.
  unfold merge_input, mbind, M_bind, lift. unfold get. simpl.
  destruct (first_with datatype (ov_datatype ov) (input s)) as [item|] eqn:Hitem;
    simpl.
  - pose proof (first_with_Some _ _ _ _ Hitem) as [Hin _].
    destruct (forallb _ (ov_format ov)) eqn:Hall.
    + unfold mret, M_ret, remove_from_input, io_remove, IOType_eq.
      rewrite set_remove_elem by done. unfold add_to_input, modify.
      intros [= <- <-]. right. right. exists item. split; [done|].
      split; [|done]. intros f Hf. rewrite forallb_forall in Hall.
      eapply bool_decide_eq_true, Hall. by apply list_elem_of_In.
    + unfold raise. intros [= <- <-]. right. left. exists item.
      split; [done|]. split; [|done].
      apply PyFacts.forallb_false in Hall as (f & Hf & Hnot).
      exists f. split; [done|]. by apply bool_decide_eq_false in Hnot.
  - intros [= <- <-]. left. eauto.
Qed.

(** Input overrides keep the datatypes of the inputs distinct. *)
Lemma merge_input_distinct ov s r s' :
  NoDup (datatype <$> input s) →
  merge_input hash_str ov s = (r, s') →
  NoDup (datatype <$> input s').
Proof.
  intros Hnd
    [(_ & _ & ->)|[(item & _ & _ & _ & ->)|(item & Hitem & _ & _ & ->)]]
    %merge_input_cases; [done|done|].
  apply first_with_Some in Hitem as [Hin _]. simpl. unfold io_add, IOType_eq.
  by destruct (replace_NoDup (IOType_hash hash_str) datatype item
                 {| datatype := datatype item; format := ov_format ov;
                    location := ov_location ov |}
                 (input s) Hnd Hin eq_refl) as [-> ?].
Qed.

Lemma merge_inputs_distinct xs s r s' :
  NoDup (datatype <$> input s) →
  for_each xs (merge_input hash_str) s = (r, s') →
  NoDup (datatype <$> input s').
Proof.
  apply (PyFacts.for_each_invariant (λ s, NoDup (datatype <$> input s))).
  intros x s0 r0 s0' Hnd Hstep. by eapply merge_input_distinct.
Qed.

(** An override that asks for a format the input does not accept is
    rejected, and the descriptor is as it was before that override. *)
Lemma merge_input_rejected bad s io_item :
  get s (ov_datatype bad) "input" = Ok (IsIO io_item) →
  (∃ f, f ∈ ov_format bad ∧ f ∉ format io_item) →
  merge_input hash_str bad s = (Raise (ValueError "not a supported format"), s).
Proof.
  intros Hget (f & Hf & Hnot).
  assert (forallb (λ f, bool_decide (f ∈ format io_item)) (ov_format bad)
          = false) as Hall.
  { apply not_true_iff_false. rewrite forallb_forall. intros Hall.
    apply Hnot. eapply bool_decide_eq_true, Hall. by apply list_elem_of_In. }
  unfold merge_input, mbind, M_bind. rewrite Hget. simpl.
  by rewrite Hall.
Qed.

(** C2, as the code has it.  [merge] applies the input overrides one after
    the other and keeps what it has applied.  For a descriptor whose inputs
    have distinct datatypes (a set of inputs can hold two of one datatype,
    and which of the two an override is checked against is then up to the
    set): when the overrides before the offending one are accepted, and the
    offending one names an input and asks for a format that input does not
    accept at that point, [merge] raises the validation error; the
    descriptor is then in the state the earlier overrides left it in:
    output and parameter sets as before the call, the input set too when
    the offending override is the first, and inputs of distinct datatypes
    in any case. *)
Theorem merge_rejects (self self1 : Params) (pre post : list InputOverride)
    (bad : InputOverride) (overrides : list (gmap string pyval))
    (io_item : IOType) :
  NoDup (datatype <$> input self) →
  for_each pre (merge_input hash_str) self = (Ok tt, self1) →
  get self1 (ov_datatype bad) "input" = Ok (IsIO io_item) →
  (∃ f, f ∈ ov_format bad ∧ f ∉ format io_item) →
  merge hash_str {| us_input := pre ++ bad :: post;
                    us_parameters := overrides |} self
    = (Raise (ValueError "not a supported format"), self1) ∧
  output self1 = output self ∧
  parameters self1 = parameters self ∧
  (pre = [] → self1 = self) ∧
  NoDup (datatype <$> input self1).
Proof.
  intros Hnd Hpre Hget Hbad. split; [|split; [|split; [|split]]].
  - unfold merge. simpl us_input. apply PyFacts.bind_raise.
    rewrite (PyFacts.for_each_app_ok _ _ _ _ _ Hpre). simpl.
    apply PyFacts.bind_raise. by apply merge_input_rejected with io_item.
  - apply merge_inputs_beside in Hpre. by injection Hpre.
  - apply merge_inputs_beside in Hpre. by injection Hpre.
  - intros ->. simpl in Hpre. by injection Hpre.
  - by eapply merge_inputs_distinct.
Qed.

End Merge.

Lemma merge_rejects_witness :
  merge sample_hash first_override_rejected group_taxa
    = (Raise (ValueError "not a supported format"), group_taxa) ∧
  output group_taxa = output group_taxa ∧
  parameters group_taxa = parameters group_taxa ∧
  (@nil InputOverride = [] → group_taxa = group_taxa) ∧
  NoDup (datatype <$> input group_taxa).
Proof.
  apply (merge_rejects sample_hash group_taxa group_taxa [] []
           {| ov_datatype := "lineage"; ov_format := ["json"];
              ov_location := LPath "/data/lineage.json" |} []
           {| datatype := "lineage"; format := ["csv"]; location := LNone |}).
  - apply NoDup_cons. split; [|apply NoDup_singleton].
    by intros [= ]%list_elem_of_singleton.
  - reflexivity.
  - reflexivity.
  - exists "json". split; [by left|]. by intros [?|?%elem_of_nil]%elem_of_cons.
Defined.

(** C2 as stated fails: when the second override is the one that is
    rejected, [merge] raises the validation error, and the input set has
    the first override in it. *)
Lemma rejected_after_accepted :
  ∃ self',
    merge sample_hash second_override_rejected group_taxa
      = (Raise (ValueError "not a supported format"), self') ∧
    input self' ≠ input group_taxa ∧
    {| datatype := "otu_table"; format := ["tsv"];
       location := LPath "/data/otu.tsv" |} ∈ input self'.
Proof.
  eexists. split; [reflexivity|]. split; [discriminate|].
  right. by left.
Qed.

Section MergeParameters.
Variable hash_str : string → Z.

Lemma dict_merge_lookup {V} (a b : gmap string V) k :
  dict_merge a b !! k = match b !! k with Some v => Some v | None => a !! k end.
Proof.
  unfold dict_merge. destruct (b !! k) as [v|] eqn:Hb.
  - by apply lookup_union_Some_l.
  - by rewrite lookup_union_r.
Qed.

(** The parameter set after one override: the record that [get] found is
    taken out and the updated record is added. *)
Lemma merge_parameters_step o nm self item :
  o !! "process" = Some (VStr nm) →
  first_with process nm (parameters self) = Some item →
  merge_parameters hash_str o self =
    (Ok tt,
     set_parameters
       (parameters_add hash_str
          {| process := nm; params := dict_merge (params item) o |}
          (set_discard (Parameters_hash hash_str) Parameters_eq item
             (parameters self)))
       self).
Proof.
  intros Ho Hitem. pose proof (first_with_Some _ _ _ _ Hitem) as [Hin Hnm].
  unfold merge_parameters, mbind, M_bind, lift. rewrite Ho. simpl.
  unfold get. simpl. rewrite Hitem. simpl.
  unfold remove_from_parameters, parameters_remove.
  rewrite (keyed_remove (Parameters_hash hash_str) Parameters_eq
             Parameters_eq_self) by done.
  unfold add_to_parameters, modify. simpl.
  by rewrite Hnm.
Qed.

(** With distinct process names, the record of each process ends with its
    param map merged with the overrides for that process, in the order of
    the list, and the process names stay distinct. *)
Lemma merge_parameters_fold os :
  ∀ s,
  (∀ o, o ∈ os →
     ∃ nm, o !! "process" = Some (VStr nm) ∧ nm ∈ process <$> parameters s) →
  NoDup (process <$> parameters s) →
  ∃ s',
    for_each os (merge_parameters hash_str) s = (Ok tt, s') ∧
    NoDup (process <$> parameters s') ∧
    ∀ nm item,
      first_with process nm (parameters s) = Some item →
      first_with process nm (parameters s') =
        Some {| process := nm;
                params :=
                  foldl dict_merge (params item)
                    (filter (λ o, o !! "process" = Some (VStr nm)) os) |}.
Proof.
  induction os as [|o os IH]; intros s Hvalid Hnd.
  - exists s. split; [done|]. split; [done|]. intros nm item Hitem. simpl.
    apply first_with_Some in Hitem as Hitem'. destruct Hitem' as [_ <-].
    by destruct item.
  - destruct (Hvalid o) as (n & Ho & Hn); [by left|].
    apply first_with_is_Some in Hn as [item_n Hitem_n].
    pose proof (first_with_Some _ _ _ _ Hitem_n) as [Hin Hproc].
    pose proof (merge_parameters_step o n s item_n Ho Hitem_n) as Hstep.
    set (u := {| process := n; params := dict_merge (params item_n) o |}) in *.
    set (s1 := set_parameters _ s) in Hstep.
    destruct (keyed_replace_NoDup (Parameters_hash hash_str) Parameters_eq
                process Parameters_eq_self Parameters_eq_process item_n u
                (parameters s) Hnd Hin) as [Hadd Hnd1]; [done|].
    assert (parameters s1 =
            set_discard (Parameters_hash hash_str) Parameters_eq item_n
              (parameters s) ++ [u]) as Hs1.
    { unfold s1, parameters_add. simpl. by rewrite Hadd. }
    destruct (IH s1) as (s' & Hrun & Hnd' & Hfold).
    { intros o' Ho'. destruct (Hvalid o') as (m & ? & ?); [by right|].
      exists m. split; [done|].
      unfold s1, parameters_add. simpl.
      by apply (keyed_replace_attrs _ _ _ Parameters_eq_process). }
    { by rewrite Hs1. }
    exists s'. split.
    { simpl. by rewrite (PyFacts.bind_ok _ _ _ _ _ Hstep). }
    split; [done|].
    intros nm item Hitem. destruct (decide (n = nm)) as [->|Hne].
    + assert (item_n = item) as -> by congruence.
      rewrite filter_cons_True by done. simpl.
      apply (Hfold nm u). rewrite Hs1. rewrite first_with_app_r.
      * simpl. by rewrite decide_True.
      * rewrite <-Hproc.
        by apply (keyed_discard_attr_fresh _ _ _ Parameters_eq_self
                    Parameters_eq_process).
    + rewrite filter_cons_False by congruence.
      apply Hfold. rewrite Hs1.
      rewrite first_with_snoc_other by done.
      rewrite (keyed_first_with_discard_other _ _ _ Parameters_eq_process);
        [done|].
      by rewrite Hproc.
Qed.

(** C6, as the code has it.  For a descriptor whose inputs have distinct
    datatypes and whose parameter records have distinct process names:
    when the input overrides are accepted and every parameter override
    names an existing process, [merge] succeeds, the datatypes and the
    process names stay distinct, and:
    - [get] returns, for each process, the record whose param map is the
      param map before the call merged with the overrides for that
      process, one after the other in the order of the document;
    - for an override that is the only one for its process, that is the
      param map before the call merged with the override;
    - in a merged map a key of the override has the value the override
      gives it, and any other key keeps its value.
    The override is the whole dictionary: its [process] key is merged in. *)
Theorem merge_overrides_parameters (self self1 : Params) (us : UserSettings) :
  NoDup (datatype <$> input self) →
  NoDup (process <$> parameters self) →
  for_each (us_input us) (merge_input hash_str) self = (Ok tt, self1) →
  (∀ o, o ∈ us_parameters us →
     ∃ nm, o !! "process" = Some (VStr nm) ∧
           nm ∈ process <$> parameters self) →
  ∃ self',
    merge hash_str us self = (Ok tt, self') ∧
    NoDup (datatype <$> input self') ∧
    NoDup (process <$> parameters self') ∧
    (∀ nm item,
       get self nm "parameters" = Ok (IsParameters item) →
       get self' nm "parameters" =
         Ok (IsParameters
               {| process := nm;
                  params :=
                    foldl dict_merge (params item)
                      (filter (λ o, o !! "process" = Some (VStr nm))
                         (us_parameters us)) |})) ∧
    (∀ pre o post nm item,
       us_parameters us = pre ++ o :: post →
       o !! "process" = Some (VStr nm) →
       (∀ o', o' ∈ pre ++ post → o' !! "process" ≠ Some (VStr nm)) →
       get self nm "parameters" = Ok (IsParameters item) →
       get self' nm "parameters" =
         Ok (IsParameters
               {| process := nm; params := dict_merge (params item) o |})) ∧
    (∀ (a o : gmap string pyval) k,
       dict_merge a o !! k =
         match o !! k with Some v => Some v | None => a !! k end).
Proof.
  intros Hndi Hndp Hin Hvalid.
  assert (parameters self1 = parameters self) as Hsame.
  { apply merge_inputs_beside in Hin. by injection Hin. }
  destruct (merge_parameters_fold (us_parameters us) self1)
    as (self' & Hrun & Hndp' & Hfold); [by rewrite Hsame|by rewrite Hsame|].
  assert (∀ nm item,
            get self nm "parameters" = Ok (IsParameters item) →
            get self' nm "parameters" =
              Ok (IsParameters
                    {| process := nm;
                       params :=
                         foldl dict_merge (params item)
                           (filter (λ o, o !! "process" = Some (VStr nm))
                              (us_parameters us)) |})) as Hget.
  { intros nm item Hitem.
    assert (first_with process nm (parameters self1) = Some item) as Hfirst.
    { rewrite Hsame. unfold get in Hitem. simpl in Hitem.
      destruct (first_with process nm (parameters self)); by simplify_eq/=. }
    unfold get. simpl. by rewrite (Hfold nm item Hfirst). }
  exists self'. split; [|split; [|split; [|split; [|split]]]].
  - unfold merge. by rewrite (PyFacts.bind_ok _ _ _ _ _ Hin).
  - assert (input self' = input self1) as ->.
    { apply (PyFacts.for_each_preserves beside_parameters) in Hrun.
      - by injection Hrun.
      - apply merge_parameters_beside. }
    by eapply merge_inputs_distinct.
  - done.
  - done.
  - intros pre o post nm item Hsplit Ho Honly Hitem.
    rewrite (Hget nm item Hitem), Hsplit.
    rewrite filter_app, filter_cons_True by done.
    rewrite !filter_none; [done|..].
    + intros o' Ho'. apply Honly. apply elem_of_app. by right.
    + intros o' Ho'. apply Honly. apply elem_of_app. by left.
  - intros a o k. apply dict_merge_lookup.
Qed.

End MergeParameters.

Lemma merge_overrides_parameters_witness :
  ∃ self',
    merge sample_hash group_by_family group_taxa = (Ok tt, self') ∧
    get self' "group" "parameters" =
      Ok (IsParameters
            {| process := "group";
               params := {[ "process" := VStr "group";
                            "level" := VStr "Family" ]} |}).
Proof.
  destruct (merge_overrides_parameters sample_hash group_taxa group_taxa
              group_by_family) as (self' & Hmerge & _ & _ & Hget & _).
  - apply NoDup_cons. split; [|apply NoDup_singleton].
    by intros [= ]%list_elem_of_singleton.
  - apply NoDup_singleton.
  - reflexivity.
  - intros o ->%list_elem_of_singleton. exists "group". split; [done|].
    by left.
  - exists self'. split; [done|].
    rewrite (Hget "group"
               {| process := "group"; params := {[ "level" := VStr "Genus" ]} |});
      [|done].
    by vm_compute.
Defined.

(** C6 as stated fails when two overrides name one process: the second is
    merged into what the first has left, so the param map after [merge] is
    not the original map merged with the first override.  [group_taxa] has
    the one process [group], with [level] at [Genus]; after an override
    that asks for [Family] and one that asks for [Order], [level] is
    [Order]. *)
Lemma overridden_twice :
  (∀ o, o ∈ us_parameters group_by_family_then_order →
     o !! "process" = Some (VStr "group")) ∧
  get group_taxa "group" "parameters" =
    Ok (IsParameters
          {| process := "group"; params := {[ "level" := VStr "Genus" ]} |}) ∧
  ∃ self' p,
    merge sample_hash group_by_family_then_order group_taxa = (Ok tt, self') ∧
    parameters self' = [p] ∧
    process p = "group" ∧
    params p !! "level" = Some (VStr "Order") ∧
    params p ≠
      dict_merge {[ "level" := VStr "Genus" ]}
        {[ "process" := VStr "group"; "level" := VStr "Family" ]}.
Proof.
  split.
  { intros o [->|[->|[]%elem_of_nil]%elem_of_cons]%elem_of_cons; reflexivity. }
  split; [reflexivity|].
  destruct (merge sample_hash group_by_family_then_order group_taxa)
    as [r self'] eqn:Hmerge.
  vm_compute in Hmerge. injection Hmerge as <- <-.
  eexists _, _. split; [reflexivity|]. split; [reflexivity|].
  split; [reflexivity|]. split; [by vm_compute|].
  intros Heq. apply (f_equal (λ m, m !! "level")) in Heq.
  by vm_compute in Heq.
Qed.

(** ** [attach_to] *)

Lemma get_output_Some previous dt o :
  get previous dt "output" = Ok (IsIO o) ↔
  first_with datatype dt (output previous) = Some o.
Proof.
  unfold get. simpl.
  destruct (first_with datatype dt (output previous)); simpl; naive_solver.
Qed.

Lemma attached_found previous i o :
  first_with datatype (datatype i) (output previous) = Some o →
  attached previous i =
    {| datatype := datatype i; format := format i; location := location o |}.
Proof. intros H. unfold attached. by rewrite H. Qed.

Lemma attached_idemp previous i :
  attached previous (attached previous i) = attached previous i.
Proof.
  unfold attached. simpl.
  by destruct (first_with datatype (datatype i) (output previous)).
Qed.

Lemma attached_datatypes previous (l : list Input) :
  datatype <$> (attached previous <$> l) = datatype <$> l.
Proof. rewrite <-list_fmap_compose. by apply list_fmap_ext. Qed.

Section Attach.
Variable hash_str : string → Z.

(** [update_location] on an input: the record that [get] found is taken
    out and the record with the new location is added. *)
Lemma update_location_input nm loc self item :
  first_with datatype nm (input self) = Some item →
  update_location hash_str nm loc "input" self =
    (Ok tt,
     set_input
       (io_add hash_str
          {| datatype := datatype item; format := format item;
             location := loc |}
          (set_discard (IOType_hash hash_str) IOType_eq item (input self)))
       self).
Proof.
  intros Hitem. pose proof (first_with_Some _ _ _ _ Hitem) as [Hin Hnm].
  unfold update_location, mbind, M_bind, lift. unfold get. simpl.
  rewrite Hitem. simpl.
  unfold remove_from_input, io_remove, IOType_eq.
  rewrite set_remove_elem by done. by unfold add_to_input, modify.
Qed.

(** One round of the loop, on the first input that is still to be done. *)
Lemma attach_body_step previous x rest done_ self :
  input self = x :: rest ++ done_ →
  NoDup (datatype <$> x :: rest ++ done_) →
  is_Some (first_with datatype (datatype x) (output previous)) →
  attach_body hash_str previous x self =
    (Ok tt, set_input (rest ++ done_ ++ [attached previous x]) self).
Proof.
  intros Hinput Hnd [o Ho].
  unfold attach_body, mbind, M_bind, lift.
  rewrite (proj2 (get_output_Some previous _ o) Ho). simpl.
  rewrite (update_location_input _ _ _ x); [|by rewrite Hinput, first_with_head].
  rewrite Hinput. unfold IOType_eq. rewrite set_discard_head.
  rewrite <-(attached_found previous x o Ho).
  unfold io_add, IOType_eq. rewrite set_add_new; [by rewrite <-app_assoc|].
  intros Hin. rewrite fmap_cons in Hnd. apply NoDup_cons in Hnd as [Hx _].
  apply Hx. by apply (list_elem_of_fmap_2 datatype) in Hin.
Qed.

Lemma attach_loop previous rest :
  ∀ done_ self,
  input self = rest ++ done_ →
  NoDup (datatype <$> rest ++ done_) →
  (∀ i, i ∈ rest →
     is_Some (first_with datatype (datatype i) (output previous))) →
  for_each_input (length (rest ++ done_)) rest (attach_body hash_str previous) self =
    (Ok tt, set_input (done_ ++ (attached previous <$> rest)) self).
Proof.
  induction rest as [|x rest IH]; intros done_ self Hinput Hnd Hfound.
  - simpl. unfold check_size. rewrite Hinput. simpl.
    rewrite decide_True by done. rewrite app_nil_r.
    destruct self. simpl in *. by subst.
  - simpl. rewrite (PyFacts.bind_ok _ _ self tt self).
    2:{ unfold check_size. rewrite Hinput. by rewrite decide_True. }
    rewrite (PyFacts.bind_ok _ _ _ _ _
               (attach_body_step previous x rest done_ self Hinput Hnd
                  (Hfound x ltac:(by left)))).
    replace (S (length (rest ++ done_)))
      with (length (rest ++ (done_ ++ [attached previous x]))).
    2:{ rewrite !length_app. simpl. lia. }
    rewrite IH.
    + simpl. by rewrite <-app_assoc.
    + done.
    + rewrite !fmap_app. simpl. apply NoDup_rotate.
      rewrite <-fmap_app. exact Hnd.
    + intros i Hi. apply Hfound. by right.
Qed.

Lemma attach_loop_not_found previous rest :
  ∀ done_ self,
  input self = rest ++ done_ →
  NoDup (datatype <$> rest ++ done_) →
  (∃ i, i ∈ rest ∧ datatype i ∉ datatype <$> output previous) →
  ∃ msg self',
    for_each_input (length (rest ++ done_)) rest (attach_body hash_str previous) self =
      (Raise (KeyError msg), self').
Proof.
  induction rest as [|x rest IH]; intros done_ self Hinput Hnd (i & Hi & Hno).
  - by apply elem_of_nil in Hi.
  - simpl. rewrite (PyFacts.bind_ok _ _ self tt self).
    2:{ unfold check_size. rewrite Hinput. by rewrite decide_True. }
    destruct (first_with datatype (datatype x) (output previous))
      as [o|] eqn:Ho.
    + rewrite (PyFacts.bind_ok _ _ _ _ _
                 (attach_body_step previous x rest done_ self Hinput Hnd
                    ltac:(by rewrite Ho))).
      replace (S (length (rest ++ done_)))
        with (length (rest ++ (done_ ++ [attached previous x]))).
      2:{ rewrite !length_app. simpl. lia. }
      apply IH.
      * done.
      * rewrite !fmap_app. simpl. apply NoDup_rotate.
        rewrite <-fmap_app. exact Hnd.
      * exists i. split; [|done].
        apply elem_of_cons in Hi as [->|Hi]; [|done].
        apply first_with_None in Hno. congruence.
    + eexists _, self. apply PyFacts.bind_raise.
      unfold attach_body. apply PyFacts.bind_raise.
      unfold lift, get. simpl. by rewrite Ho.
Qed.

Lemma attach_to_ok previous self :
  NoDup (datatype <$> input self) →
  (∀ i, i ∈ input self → datatype i ∈ datatype <$> output previous) →
  attach_to hash_str previous self =
    (Ok tt, set_input (attached previous <$> input self) self).
Proof.
  intros Hnd Hfound. unfold attach_to.
  pose proof (attach_loop previous (input self) [] self) as Hloop.
  rewrite app_nil_r in Hloop. simpl in Hloop. apply Hloop; [done|done|].
  intros i Hi. apply first_with_is_Some. by apply Hfound.
Qed.

(** C5, as the code has it.  For a descriptor whose inputs have distinct
    datatypes (a set of inputs can hold two of one datatype): when every
    input datatype is the datatype of an output of the predecessor,
    [attach_to] succeeds, changes nothing but the input set, and leaves
    exactly the inputs it had, each with the location of the output that
    [previous.get] returns for its datatype; a second call changes
    nothing.  When some input datatype is the datatype of no output of the
    predecessor, [attach_to] raises [KeyError]. *)
Theorem attach_to_spec (previous self : Params) :
  NoDup (datatype <$> input self) →
  ((∀ i, i ∈ input self → datatype i ∈ datatype <$> output previous) →
   ∃ self',
     attach_to hash_str previous self = (Ok tt, self') ∧
     beside_input self' = beside_input self ∧
     (∀ i', i' ∈ input self' ↔
        ∃ i o, i ∈ input self ∧
               get previous (datatype i) "output" = Ok (IsIO o) ∧
               i' = {| datatype := datatype i; format := format i;
                       location := location o |}) ∧
     attach_to hash_str previous self' = (Ok tt, self')) ∧
  ((∃ i, i ∈ input self ∧ datatype i ∉ datatype <$> output previous) →
   ∃ msg self',
     attach_to hash_str previous self = (Raise (KeyError msg), self')).
Proof.
  intros Hnd. split.
  - intros Hfound. eexists. split; [by apply attach_to_ok|].
    split; [done|]. split.
    + intros i'. simpl. rewrite list_elem_of_fmap. split.
      * intros (i & -> & Hi).
        destruct (proj2 (first_with_is_Some datatype (datatype i)
                           (output previous)) (Hfound i Hi)) as [o Ho].
        exists i, o. split; [done|].
        split; [by apply get_output_Some|by apply attached_found].
      * intros (i & o & Hi & Ho%get_output_Some & ->).
        exists i. split; [by rewrite (attached_found _ _ _ Ho)|done].
    + rewrite attach_to_ok; simpl.
      * assert (attached previous <$> (attached previous <$> input self)
                = attached previous <$> input self) as ->; [|done].
        rewrite <-list_fmap_compose. apply list_fmap_ext.
        intros ? i _. apply attached_idemp.
      * by rewrite attached_datatypes.
      * intros i' (i & -> & Hi)%list_elem_of_fmap. exact (Hfound i Hi).
  - intros Hmissing. unfold attach_to.
    pose proof (attach_loop_not_found previous (input self) [] self) as Hloop.
    rewrite app_nil_r in Hloop. by apply Hloop.
Qed.

End Attach.

Lemma attach_to_spec_witness :
  ∃ self',
    attach_to sample_hash group_taxa sparcc_unattached = (Ok tt, self') ∧
    input self' =
      [ {| datatype := "otu_table"; format := ["biom"];
           location := LPath "/results/group/otu.biom" |} ] ∧
    attach_to sample_hash group_taxa self' = (Ok tt, self').
Proof.
  destruct (attach_to_spec sample_hash group_taxa sparcc_unattached)
    as [Hok _].
  - apply NoDup_singleton.
  - destruct Hok as (self' & Hrun & _ & _ & Hagain).
    + intros i ->%list_elem_of_singleton. by left.
    + exists self'. split; [done|]. split; [|done].
      vm_compute in Hrun. by injection Hrun as <-.
Defined.

(** C5 as stated fails for a descriptor with two inputs of one datatype.
    Both inputs of [sparcc_two_otu_tables] have the datatype of an output
    of [group_taxa].  The first round of the loop replaces the input
    without a location by a record equal to the other input, the set
    shrinks, and the iterator raises. *)
Lemma attach_with_repeated_datatype :
  (∀ i, i ∈ input sparcc_two_otu_tables →
     datatype i ∈ datatype <$> output group_taxa) ∧
  attach_to sample_hash group_taxa sparcc_two_otu_tables =
    (Raise (RuntimeError "Set changed size during iteration"),
     set_input [otu_located] sparcc_two_otu_tables).
Proof.
  split; [|reflexivity].
  intros i [->|[->|[]%elem_of_nil]%elem_of_cons]%elem_of_cons; by left.
Qed.

(** ** [ParamsSet] *)

Section Registry.
Variables (hash_str : string → Z) (fs : FileSystem).

(** A new object is never found in the set: [==] on [Params] is identity,
    and the objects in the set were made earlier. *)
Lemma new_object_not_contained (p : Params) n (ps : list (object Params)) :
  (∀ o, o ∈ ps → addr o < n) →
  processes_contains hash_str {| addr := n; value := p |} ps = false.
Proof.
  intros Hlt. unfold processes_contains, set_contains.
  apply not_true_iff_false. rewrite existsb_exists.
  intros (o & Ho%list_elem_of_In & Hsame). unfold same, Params_eq in Hsame.
  apply andb_true_iff in Hsame as [_ Heq%bool_decide_eq_true].
  simpl in Heq. specialize (Hlt o Ho). lia.
Qed.

(** A descriptor is named by the key of its catalog entry. *)
Lemma Params_init_name key d p :
  Params_init hash_str fs key d = Ok p → name p = key.
Proof.
  unfold Params_init, mbind, result_bind. intros H.
  destruct (forallb _ _req_keys); [|done].
  destruct (of_option (d !! "root") _) as [rv|]; [|done].
  destruct (as_path rv) as [r|]; [|done].
  destruct (check_dir fs _ _); [|done].
  match type of H with
  | match ?envr with _ => _ end = _ => destruct envr as [env_|]; [|done]
  end.
  destruct (of_option (d !! "output_location") _) as [ov|]; [|done].
  destruct (as_path ov) as [out_loc|]; [|done].
  destruct (of_option (d !! "input") _) as [idata|]; [|done].
  destruct (_process_io hash_str idata "input") as [ins|]; [|done].
  destruct (of_option (d !! "output") _) as [odata|]; [|done].
  destruct (_process_io hash_str odata "output") as [outs|]; [|done].
  destruct (of_option (d !! "parameters") _) as [pdata|]; [|done].
  destruct pdata as [| | | | |curr_params|]; try done.
  destruct (fold_result (add_parameters hash_str) curr_params [])
    as [pars|]; [|done].
  by injection H as <-.
Qed.

Lemma ParamsSet_loop items :
  ∀ n ps,
  (∀ o, o ∈ ps → addr o < n) →
  (∀ key v, (key, v) ∈ items →
     ∃ d p, v = VDict d ∧ Params_init hash_str fs key d = Ok p) →
  ∃ ps',
    fold_result (ParamsSet_step hash_str fs) items (n, ps)
      = Ok (n + length items, ps') ∧
    length ps' = length ps + length items ∧
    (λ o, name (value o)) <$> ps' = ((λ o, name (value o)) <$> ps) ++ items.*1.
Proof.
  induction items as [|[key v] items IH]; intros n ps Hlt Hvalid.
  - exists ps. simpl. rewrite !Nat.add_0_r, app_nil_r. done.
  - destruct (Hvalid key v) as (d & p & -> & Hinit); [by left|].
    assert (name p = key) as Hname by (by eapply Params_init_name).
    simpl. unfold mbind at 1, result_bind at 1. simpl.
    rewrite Hinit. simpl.
    rewrite new_object_not_contained by done.
    unfold mbind, result_bind, processes_add, set_add.
    fold (processes_contains hash_str {| addr := n; value := p |} ps).
    rewrite new_object_not_contained by done.
    destruct (IH (S n) (ps ++ [{| addr := n; value := p |}]))
      as (ps' & Hrun & Hlen & Hnames).
    { intros o [Ho| ->%list_elem_of_singleton]%elem_of_app; simpl.
      - specialize (Hlt o Ho). lia.
      - lia. }
    { intros key' v' Hin. apply Hvalid. by right. }
    exists ps'. split; [|split].
    + unfold mbind, result_bind in Hrun. rewrite Hrun.
      by rewrite Nat.add_succ_r.
    + rewrite Hlen, length_app. simpl. lia.
    + rewrite Hnames, fmap_app. simpl. rewrite Hname.
      by rewrite <-app_assoc.
Qed.

(** The check for duplicates never fires.  Whatever names the items carry,
    repeated or not, a registry is built when every entry is a valid
    definition, and its length is the number of items. *)
Lemma ParamsSet_init_items_valid items :
  (∀ key v, (key, v) ∈ items →
     ∃ d p, v = VDict d ∧ Params_init hash_str fs key d = Ok p) →
  ∃ registry,
    ParamsSet_init_items hash_str fs items = Ok registry ∧
    ParamsSet_len registry = length items ∧
    (λ o, name (value o)) <$> processes registry = items.*1.
Proof.
  intros Hvalid.
  destruct (ParamsSet_loop items 0 []) as (ps & Hrun & Hlen & Hnames);
    [by intros o ?%elem_of_nil|done|].
  exists {| processes := ps |}. unfold ParamsSet_init_items.
  unfold mbind, result_bind. rewrite Hrun. simpl. split; [done|]. split.
  - unfold ParamsSet_len. simpl. by rewrite Hlen.
  - done.
Qed.

(** A catalog that is a dictionary cannot repeat a name; built from valid
    definitions, the registry has as many stages as the catalog has
    entries. *)
Lemma ParamsSet_init_valid (data : gmap string pyval) :
  (∀ key v, data !! key = Some v →
     ∃ d p, v = VDict d ∧ Params_init hash_str fs key d = Ok p) →
  ∃ registry,
    ParamsSet_init hash_str fs data = Ok registry ∧
    ParamsSet_len registry = size data ∧
    ∀ key, ParamsSet_contains registry key = true ↔ is_Some (data !! key).
Proof.
  intros Hvalid. unfold ParamsSet_init.
  destruct (ParamsSet_init_items_valid (map_to_list data))
    as (registry & Hinit & Hlen & Hnames).
  { intros key v Hin%elem_of_map_to_list. by apply Hvalid. }
  exists registry. split; [done|]. split.
  - by rewrite Hlen, length_map_to_list.
  - intros key. unfold ParamsSet_contains.
    rewrite bool_decide_eq_true, Hnames.
    rewrite <-elem_of_dom, dom_alt. by rewrite elem_of_list_to_set.
Qed.

End Registry.

(** C7, at a catalog with a repeated stage name.  The three-level catalog
    [colliding_catalog] holds two definitions that both get the name
    [a.b.c.d]; the constructor does not raise, and the registry has one
    stage.  The base constructor, run on a sequence of items in which the
    name [sparcc] comes twice, does not raise either, and the registry has
    two stages named [sparcc]. *)
Theorem repeated_name_accepted :
  (∃ registry,
     ExternalParamsSet_init sample_hash installed colliding_catalog
       = Ok registry ∧
     ParamsSet_len registry = 1 ∧
     ParamsSet_contains registry "a.b.c.d" = true) ∧
  (∃ registry,
     ParamsSet_init_items sample_hash installed repeated_items = Ok registry ∧
     ParamsSet_len registry = 2 ∧
     (λ o, name (value o)) <$> processes registry = ["sparcc"; "sparcc"]).
Proof.
  split; eexists; (split; [by vm_compute|]); by split.
Qed.

End ConfigSpec.

(* ===================================================================== *)
(** * More about [Command] *)
(* ===================================================================== *)

Module CommandMore.
Import Command CommandLog Samples PyFacts.
Import MoreSamples (decode_ascii, quick_world, garbled_world, echo_hi_done,
                    read_only, writable).

(** ** The argument vector *)

Lemma str_split_no_sep sep s w :
  w ∈ str_split sep s → sep ∉ String.list_ascii_of_string w.
Proof.
  revert w. induction s as [|c s IH]; intros w; simpl.
  - intros ->%list_elem_of_singleton. apply not_elem_of_nil.
  - case_decide as Hc.
    + intros [->|Hw]%elem_of_cons; [apply not_elem_of_nil|by apply IH].
    + pose proof (str_split_nonempty sep s) as Hne.
      destruct (str_split sep s) as [|w0 ws]; [done|].
      intros [->|Hw]%elem_of_cons.
      * simpl. rewrite not_elem_of_cons. split; [congruence|].
        apply IH. by left.
      * apply IH. by right.
Qed.

Lemma str_split_length sep s :
  length (str_split sep s) =
  S (length (filter (λ c, c = sep) (String.list_ascii_of_string s))).
Proof.
  induction s as [|c s IH]; simpl; [done|].
  case_decide as Hc.
  - rewrite filter_cons_True by done. simpl. by rewrite IH.
  - rewrite filter_cons_False by done.
    pose proof (str_split_nonempty sep s) as Hne.
    destruct (str_split sep s) as [|w0 ws]; [done|]. by rewrite <-IH.
Qed.

Lemma str_split_plain sep w :
  sep ∉ String.list_ascii_of_string w → str_split sep w = [w].
Proof.
  induction w as [|c w IH]; simpl; [done|].
  rewrite not_elem_of_cons. intros [Hc Hw].
  rewrite decide_False by done. by rewrite IH.
Qed.

Lemma str_split_app sep w s :
  sep ∉ String.list_ascii_of_string w →
  str_split sep (w +:+ String sep s) = w :: str_split sep s.
Proof.
  induction w as [|c w IH]; simpl.
  - intros _. by rewrite decide_True.
  - rewrite not_elem_of_cons. intros [Hc Hw].
    rewrite decide_False by done. by rewrite IH.
Qed.

(** Joining words that hold no separator and splitting again gives the
    words back. *)
Lemma str_split_join sep ws :
  ws ≠ [] →
  (∀ w, w ∈ ws → sep ∉ String.list_ascii_of_string w) →
  str_split sep (str_join (String sep EmptyString) ws) = ws.
Proof.
  induction ws as [|w ws IH]; [done|]. intros _ Hws.
  destruct ws as [|w' ws].
  - simpl. apply str_split_plain. apply Hws. by left.
  - rewrite str_join_cons_nonempty by done.
    change (String sep "" +:+ ?x) with (String sep x).
    rewrite str_split_app by (apply Hws; by left).
    f_equal. apply IH; [done|]. intros w0 Hw0. apply Hws. by right.
Qed.

(** X1.  The argument vector that [_build_cmd] makes has one word more
    than the command string has spaces (and [qsub] in front under [sge]),
    and no word holds a space: two spaces in a row give an empty word. *)
Theorem argv_shape (profile s : string) (v : list string) :
  _build_cmd profile s = Ok v →
  (∀ w, w ∈ v → " "%char ∉ String.list_ascii_of_string w) ∧
  length v =
    (if decide (profile = "sge") then 2 else 1)
    + length (filter (λ c, c = " "%char) (String.list_ascii_of_string s)).
Proof.
  unfold _build_cmd. intros Hv.
  destruct (decide (profile = "local")) as [->|Hl].
  - injection Hv as <-. simpl. split.
    + apply str_split_no_sep.
    + by rewrite str_split_length.
  - destruct (decide (profile = "sge")) as [->|Hs]; [|done].
    injection Hv as <-. simpl. split.
    + intros w [->|Hw]%elem_of_cons; [|by eapply str_split_no_sep].
      vm_compute. intros Hin. repeat (apply elem_of_cons in Hin as [?|Hin]; [done|]).
      by apply elem_of_nil in Hin.
    + by rewrite str_split_length.
Qed.

Lemma argv_shape_witness :
  (∀ w, w ∈ ["echo"; ""; "hi"] → " "%char ∉ String.list_ascii_of_string w) ∧
  length ["echo"; ""; "hi"] =
    (if decide ("local" = "sge") then 2 else 1)
    + length (filter (λ c, c = " "%char) (String.list_ascii_of_string "echo  hi")).
Proof. apply (argv_shape "local" "echo  hi" ["echo"; ""; "hi"]). reflexivity. Defined.

(** X2.  Under the profile [local] the [cmd] string determines the
    argument vector: building a command from the [cmd] of a vector of
    space-free words gives that vector back. *)
Theorem cmd_round_trip (c : Command) :
  _cmd c ≠ [] →
  (∀ w, w ∈ _cmd c → " "%char ∉ String.list_ascii_of_string w) →
  _build_cmd "local" (cmd c) = Ok (_cmd c).
Proof.
  intros Hne Hws. unfold _build_cmd, cmd. simpl.
  by rewrite (str_split_join " ").
Qed.

Lemma cmd_round_trip_witness : _build_cmd "local" (cmd echo_hi) = Ok (_cmd echo_hi).
Proof.
  apply (cmd_round_trip echo_hi); [discriminate|].
  intros w Hw. by apply (str_split_no_sep " " "echo hi").
Defined.

Section Lifecycle.
Variable W : World.


(** X4.  [update] never leaves a command out of step with its process:
    whatever the command and the new string, [proc_cmd_sync] does not
    return [False] on the command [update] leaves. *)
Theorem update_in_sync (c c' : Command) (s : string) (r : result unit) :
  update s c = (r, c') → r = Ok tt → proc_cmd_sync c' ≠ Ok false.
Proof.
  unfold update. destruct (_build_cmd (profile c) s) as [v|e].
  - simpl. destruct (process c) as [p|] eqn:Hp.
    + unfold proc_cmd_sync at 1. simpl. rewrite Hp.
      destruct (decide (v = args p)) as [->|Hne].
      * intros [= _ <-] _. unfold proc_cmd_sync. simpl. rewrite Hp.
        by rewrite decide_True.
      * by intros [= _ <-] _.
    + intros [= _ <-] _. unfold proc_cmd_sync. simpl. by rewrite Hp.
  - by intros [= <- _] ?.
Qed.

(** X5.  After a [wait] that succeeds, [output] and [error] give the
    decoded streams from the cache and change nothing. *)
Theorem wait_then_read (c : Command) (p : Popen) (out err : list byte)
    (so se : string) :
  process c = Some p →
  communicate W p (_timeout c) = Exited out err →
  decode_utf8 W out = Some so →
  decode_utf8 W err = Some se →
  ∃ c',
    wait W c = (Ok tt, c') ∧
    _stdout c' = Some so ∧ _stderr c' = Some se ∧
    process c' = Some p ∧ _cmd c' = _cmd c ∧
    output W c' = (Ok so, c') ∧
    error W c' = (Ok se, c').
Proof.
  intros Hp Hcomm Hso Hse. eexists. split.
  - unfold wait. rewrite Hp.
    unfold mbind, M_bind, do_communicate, decode, lift, modify.
    rewrite Hcomm. simpl. rewrite Hse. simpl. rewrite Hso. simpl. reflexivity.
  - by repeat split.
Qed.

(** X6.  [output] on a launched command with nothing captured reads both
    streams once and stores both, so that [error] is then served from the
    cache; with something already captured it returns the cache, whatever
    the process has done since. *)
Theorem output_captures_both (c : Command) (p : Popen) (out err : list byte)
    (so se : string) :
  _stdout c = None →
  process c = Some p →
  communicate W p (_timeout c) = Exited out err →
  decode_utf8 W out = Some so →
  decode_utf8 W err = Some se →
  ∃ c',
    output W c = (Ok so, c') ∧
    _stdout c' = Some so ∧ _stderr c' = Some se ∧
    output W c' = (Ok so, c') ∧
    error W c' = (Ok se, c').
Proof.
  intros Ho Hp Hcomm Hso Hse. eexists. split.
  - unfold output. rewrite Ho, Hp.
    unfold mbind, M_bind, do_communicate, decode, lift, modify, mret, M_ret.
    rewrite Hcomm. simpl. rewrite Hso. simpl. rewrite Hse. simpl. reflexivity.
  - by repeat split.
Qed.

(** X7.  A stream that is not UTF-8 leaves the command half captured:
    [wait] decodes the error stream first, so with an output stream that
    does not decode it raises with the error stream stored and the output
    unset; [output] decodes the output stream first, so with an error
    stream that does not decode it raises with the output stored. *)
Theorem half_captured (c : Command) (p : Popen) (out err : list byte) :
  _stdout c = None → _stderr c = None →
  process c = Some p →
  communicate W p (_timeout c) = Exited out err →
  (∀ se, decode_utf8 W err = Some se → decode_utf8 W out = None →
     wait W c = (Raise UnicodeDecodeError, set_stderr (Some se) c)) ∧
  (∀ so, decode_utf8 W out = Some so → decode_utf8 W err = None →
     output W c = (Raise UnicodeDecodeError, set_stdout (Some so) c)).
Proof.
  intros Ho He Hp Hcomm. split.
  - intros se Hse Hout. unfold wait. rewrite Hp.
    unfold mbind, M_bind, do_communicate, decode, lift, modify.
    rewrite Hcomm. simpl. rewrite Hse. simpl. by rewrite Hout.
  - intros so Hso Herr. unfold output. rewrite Ho, Hp.
    unfold mbind, M_bind, do_communicate, decode, lift, modify.
    rewrite Hcomm. simpl. rewrite Hso. simpl. by rewrite Herr.
Qed.

(** X8.  [run] does not clear what an earlier run captured: on a command
    with captured output, a second [run] that starts gives a new process
    handle, and [output] and [error] still return the old text without
    asking the new process. *)
Theorem run_keeps_captures (c : Command) (cwd : option string)
    (so se : string) :
  _stdout c = Some so → _stderr c = Some se →
  spawn_error W (_cmd c) cwd = None →
  ∃ p c',
    run W cwd c = (Ok p, c') ∧
    process c' = Some p ∧ args p = _cmd c ∧
    output W c' = (Ok so, c') ∧
    error W c' = (Ok se, c').
Proof.
  intros Ho He Hspawn. unfold run. rewrite Hspawn.
  eexists _, _. split; [reflexivity|]. split; [done|]. split; [done|].
  unfold output, error. simpl. by rewrite Ho, He.
Qed.

Section Log.
Variable open_error : string → option exn.


End Log.
End Lifecycle.


Lemma update_in_sync_witness :
  proc_cmd_sync
    {| profile := "local"; _cmd := ["ls"]; _timeout := 1000;
       _stdout := None; _stderr := None; process := None |} ≠ Ok false.
Proof.
  apply (update_in_sync echo_hi_running _ "ls" (Ok tt)); reflexivity.
Defined.

Lemma wait_then_read_witness :
  ∃ c',
    wait quick_world echo_hi_running = (Ok tt, c') ∧
    _stdout c' = Some "hi" ∧ _stderr c' = Some "" ∧
    process c' = Some echo_hi_popen ∧ _cmd c' = _cmd echo_hi_running ∧
    output quick_world c' = (Ok "hi", c') ∧
    error quick_world c' = (Ok "", c').
Proof.
  apply (wait_then_read quick_world echo_hi_running echo_hi_popen
           [x68; x69] [] "hi" ""); reflexivity.
Defined.

Lemma output_captures_both_witness :
  ∃ c',
    output quick_world echo_hi_running = (Ok "hi", c') ∧
    _stdout c' = Some "hi" ∧ _stderr c' = Some "" ∧
    output quick_world c' = (Ok "hi", c') ∧
    error quick_world c' = (Ok "", c').
Proof.
  apply (output_captures_both quick_world echo_hi_running echo_hi_popen
           [x68; x69] [] "hi" ""); reflexivity.
Defined.

Lemma half_captured_witness :
  wait garbled_world echo_hi_running =
    (Raise UnicodeDecodeError, set_stderr (Some "") echo_hi_running).
Proof.
  apply (half_captured garbled_world echo_hi_running echo_hi_popen [xff] []);
    reflexivity.
Defined.

Lemma run_keeps_captures_witness :
  ∃ p c',
    run slow_world None echo_hi_done = (Ok p, c') ∧
    process c' = Some p ∧ args p = _cmd echo_hi_done ∧
    output slow_world c' = (Ok "hi", c') ∧
    error slow_world c' = (Ok "", c').
Proof.
  apply (run_keeps_captures slow_world echo_hi_done None "hi" ""); reflexivity.
Defined.


End CommandMore.

(* ===================================================================== *)
(** * More about [Params] and [ParamsSet] *)
(* ===================================================================== *)

Module ConfigMore.
Import Config ConfigNotions Samples SetFacts.
Import MoreSamples (sparcc_entry, small_catalog, nested_catalog,
                    after_group_taxa, sparcc_at_string).

(** ** Replacing a record of a set *)

Section Replace.
Context {A : Type} `{EqDecision A} (hash : A → Z) (attr : A → string).

Local Abbreviation eqb := (λ x y : A, bool_decide (x = y)).

(** In a set whose elements have distinct attributes, replacing [x] by an
    element [u] with the attribute of [x] makes a lookup of that attribute
    find [u] and leaves every other lookup as it was. *)
Lemma replace_lookup x u l :
  NoDup (attr <$> l) → x ∈ l → attr u = attr x →
  first_with attr (attr x) (set_add hash eqb u (set_discard hash eqb x l))
    = Some u ∧
  (∀ nm, nm ≠ attr x →
     first_with attr nm (set_add hash eqb u (set_discard hash eqb x l))
       = first_with attr nm l) ∧
  NoDup (attr <$> set_add hash eqb u (set_discard hash eqb x l)).
Proof.
  intros Hnd Hx Hu.
  destruct (replace_NoDup hash attr x u l Hnd Hx Hu) as [-> Hnd'].
  split; [|split; [|done]].
  - rewrite first_with_app_r by (by apply discard_attr_fresh).
    simpl. by rewrite decide_True.
  - intros nm Hnm. rewrite first_with_snoc_other by congruence.
    by apply first_with_discard_other.
Qed.

End Replace.

(** ** [get] *)

(** X10.  [get] raises [TypeError] for a category other than [input],
    [output] and [parameters], and [KeyError] when no element of the set
    it searches has the name; what it returns is an element of that set
    with that name. *)
Theorem get_spec (self : Params) (nm category : string) :
  (category ≠ "input" → category ≠ "output" → category ≠ "parameters" →
   ∃ msg, get self nm category = Raise (TypeError msg)) ∧
  (category = "input" →
   (nm ∉ datatype <$> input self →
    ∃ msg, get self nm category = Raise (KeyError msg)) ∧
   (nm ∈ datatype <$> input self →
    ∃ io, get self nm category = Ok (IsIO io) ∧
          io ∈ input self ∧ datatype io = nm)) ∧
  (category = "output" →
   (nm ∉ datatype <$> output self →
    ∃ msg, get self nm category = Raise (KeyError msg)) ∧
   (nm ∈ datatype <$> output self →
    ∃ io, get self nm category = Ok (IsIO io) ∧
          io ∈ output self ∧ datatype io = nm)) ∧
  (category = "parameters" →
   (nm ∉ process <$> parameters self →
    ∃ msg, get self nm category = Raise (KeyError msg)) ∧
   (nm ∈ process <$> parameters self →
    ∃ p, get self nm category = Ok (IsParameters p) ∧
         p ∈ parameters self ∧ process p = nm)).
Proof.
  split; [|split; [|split]].
  - intros H1 H2 H3. unfold get. rewrite !decide_False by done. eauto.
  - intros ->. unfold get. simpl. split.
    + intros ->%first_with_None. simpl. eauto.
    + intros [io Hio]%first_with_is_Some. rewrite Hio. simpl.
      apply first_with_Some in Hio as [??]. eauto.
  - intros ->. unfold get. simpl. split.
    + intros ->%first_with_None. simpl. eauto.
    + intros [io Hio]%first_with_is_Some. rewrite Hio. simpl.
      apply first_with_Some in Hio as [??]. eauto.
  - intros ->. unfold get. simpl. split.
    + intros ->%first_with_None. simpl. eauto.
    + intros [p Hp]%first_with_is_Some. rewrite Hp. simpl.
      apply first_with_Some in Hp as [??]. eauto.
Qed.

Lemma get_spec_witness :
  ∃ msg, get sparcc "lineage" "inputs" = Raise (TypeError msg).
Proof. apply (get_spec sparcc "lineage" "inputs"); discriminate. Defined.

(** ** [update_location] *)

Section Update.
Variable hash_str : string → Z.

Lemma update_location_output nm loc self item :
  first_with datatype nm (output self) = Some item →
  update_location hash_str nm loc "output" self =
    (Ok tt,
     set_output
       (io_add hash_str
          {| datatype := datatype item; format := format item;
             location := loc |}
          (set_discard (IOType_hash hash_str) IOType_eq item (output self)))
       self).
Proof.
  intros Hitem. pose proof (first_with_Some _ _ _ _ Hitem) as [Hin Hnm].
  unfold update_location, mbind, M_bind, lift. unfold get. simpl.
  rewrite Hitem. simpl.
  unfold remove_from_output, io_remove, IOType_eq.
  rewrite set_remove_elem by done. by unfold add_to_output, modify.
Qed.

(** X11.  With distinct input datatypes, [update_location] on an input
    that exists succeeds; afterwards [get] returns that input with its
    format and the new location, returns for every other datatype what it
    returned before, and nothing but the input set has changed.  The same
    holds for outputs. *)
Theorem update_location_lookup (self : Params) (nm : string)
    (loc : Location) :
  (NoDup (datatype <$> input self) → nm ∈ datatype <$> input self →
   ∃ old self',
     get self nm "input" = Ok (IsIO old) ∧
     update_location hash_str nm loc "input" self = (Ok tt, self') ∧
     get self' nm "input" =
       Ok (IsIO {| datatype := nm; format := format old; location := loc |}) ∧
     (∀ other, other ≠ nm →
        get self' other "input" = get self other "input") ∧
     beside_input self' = beside_input self ∧
     NoDup (datatype <$> input self')) ∧
  (NoDup (datatype <$> output self) → nm ∈ datatype <$> output self →
   ∃ old self',
     get self nm "output" = Ok (IsIO old) ∧
     update_location hash_str nm loc "output" self = (Ok tt, self') ∧
     get self' nm "output" =
       Ok (IsIO {| datatype := nm; format := format old; location := loc |}) ∧
     (∀ other, other ≠ nm →
        get self' other "output" = get self other "output") ∧
     input self' = input self ∧ parameters self' = parameters self ∧
     NoDup (datatype <$> output self')).
Proof.
  split.
  - intros Hnd [old Hold]%first_with_is_Some.
    pose proof (first_with_Some _ _ _ _ Hold) as [Hin Hdt].
    set (u := {| datatype := datatype old; format := format old;
                 location := loc |}).
    destruct (replace_lookup (IOType_hash hash_str) datatype old u
                (input self) Hnd Hin eq_refl) as (Hnew & Hother & Hnd').
    exists old. eexists.
    split; [|split; [by apply ConfigSpec.update_location_input|]].
    { unfold get. simpl. by rewrite Hold. }
    unfold get, io_add, IOType_eq. subst u. simpl in *. rewrite Hdt in *.
    split; [by rewrite Hnew|].
    split; [|done]. intros other Hne. by rewrite Hother.
  - intros Hnd [old Hold]%first_with_is_Some.
    pose proof (first_with_Some _ _ _ _ Hold) as [Hin Hdt].
    set (u := {| datatype := datatype old; format := format old;
                 location := loc |}).
    destruct (replace_lookup (IOType_hash hash_str) datatype old u
                (output self) Hnd Hin eq_refl) as (Hnew & Hother & Hnd').
    exists old. eexists. split; [|split; [by apply update_location_output|]].
    { unfold get. simpl. by rewrite Hold. }
    unfold get, io_add, IOType_eq. subst u. simpl in *. rewrite Hdt in *.
    split; [by rewrite Hnew|].
    split; [|done]. intros other Hne. by rewrite Hother.
Qed.

(** X12.  [update_location] that raises has changed nothing, and it raises
    [KeyError] or [TypeError]; with a category other than [input] and
    [output] it always raises, [parameters] included. *)
Theorem update_location_fails_clean (self self' : Params) (nm category : string)
    (loc : Location) (r : result unit) :
  update_location hash_str nm loc category self = (r, self') →
  (∀ e, r = Raise e →
     self' = self ∧ ((∃ msg, e = KeyError msg) ∨ (∃ msg, e = TypeError msg))) ∧
  (category ≠ "input" → category ≠ "output" → ∃ e, r = Raise e).
Proof.
  unfold update_location, mbind, M_bind. unfold get.
  destruct (decide (category = "input")) as [->|Hi].
  { simpl. destruct (first_with datatype nm (input self)) as [item|] eqn:Hitem;
      simpl.
    - pose proof (first_with_Some _ _ _ _ Hitem) as [Hin _].
      unfold remove_from_input, io_remove, IOType_eq.
      rewrite set_remove_elem by done. unfold add_to_input, modify.
      intros [= <- <-]. split; [done|]. by intros ? ?.
    - intros [= <- <-]. split; [|done]. intros e [= <-]. eauto. }
  destruct (decide (category = "output")) as [->|Ho].
  { simpl. destruct (first_with datatype nm (output self)) as [item|] eqn:Hitem;
      simpl.
    - pose proof (first_with_Some _ _ _ _ Hitem) as [Hin _].
      unfold remove_from_output, io_remove, IOType_eq.
      rewrite set_remove_elem by done. unfold add_to_output, modify.
      intros [= <- <-]. split; [done|]. by intros ? ?.
    - intros [= <- <-]. split; [|done]. intros e [= <-]. eauto. }
  destruct (decide (category = "parameters")) as [->|Hp].
  - simpl. destruct (first_with process nm (parameters self)); simpl;
      unfold raise; intros [= <- <-]; (split; [|eauto]);
      intros e [= <-]; eauto.
  - simpl. intros [= <- <-]. split; [|eauto]. intros e [= <-]. eauto.
Qed.

End Update.

Lemma update_location_lookup_witness :
  ∃ old self',
    get group_taxa "lineage" "input" = Ok (IsIO old) ∧
    update_location sample_hash "lineage" (LPath "/data/lineage.csv") "input"
      group_taxa = (Ok tt, self') ∧
    get self' "lineage" "input" =
      Ok (IsIO {| datatype := "lineage"; format := format old;
                  location := LPath "/data/lineage.csv" |}) ∧
    (∀ other, other ≠ "lineage" →
       get self' other "input" = get group_taxa other "input") ∧
    beside_input self' = beside_input group_taxa ∧
    NoDup (datatype <$> input self').
Proof.
  apply (update_location_lookup sample_hash group_taxa "lineage"
           (LPath "/data/lineage.csv")).
  - apply NoDup_cons. split; [|apply NoDup_singleton].
    by intros [= ]%list_elem_of_singleton.
  - right. by left.
Defined.

Lemma update_location_fails_clean_witness :
  (∀ e, (Raise (TypeError "Category can only be either 'Input' or 'Output'")
           : result unit) = Raise e →
     group_taxa = group_taxa ∧
     ((∃ msg, e = KeyError msg) ∨ (∃ msg, e = TypeError msg))) ∧
  ("parameters" ≠ "input" → "parameters" ≠ "output" →
   ∃ e, (Raise (TypeError "Category can only be either 'Input' or 'Output'")
           : result unit) = Raise e).
Proof.
  apply (update_location_fails_clean sample_hash group_taxa group_taxa
           "group" "parameters" LNone). reflexivity.
Defined.

(** ** [verify_io] and [dict] *)

Section Materialize.
Variable fs : FileSystem.

Lemma check_all_raise {A} (check : A → result unit) xs e :
  check_all check xs = Raise e → ∃ x, x ∈ xs ∧ check x = Raise e.
Proof.
  induction xs as [|x xs IH]; simpl; [done|].
  unfold mbind, result_bind. destruct (check x) as [[]|e'] eqn:Hx.
  - intros (y & Hy & Hcheck)%IH. exists y. split; [by right|done].
  - intros [= ->]. exists x. split; [by left|done].
Qed.

(** X13.  [dict] raises exactly what [verify_io] raises and returns a
    mapping when [verify_io] passes.  What [verify_io] raises is a
    [ValueError]; or, the output location being absolute, for some input a
    [FileNotFoundError] when its path is not on the file system, the
    error of [exists] when that call fails, or an [AttributeError] when
    its location is a string; or an [AttributeError] for an output whose
    location is a string.  When all the inputs are located by strings, as
    [update_location] is annotated to be called, and there is an input,
    [verify_io] raises [AttributeError]. *)
Theorem dict_raises_as_verify_io (self : Params) :
  (∀ e, dict fs self = Raise e ↔ verify_io fs self = Raise e) ∧
  ((∃ data, dict fs self = Ok data) ↔ verify_io fs self = Ok tt) ∧
  (∀ e, verify_io fs self = Raise e →
     (∃ msg, e = ValueError msg) ∨
     (is_absolute (output_location self) = true ∧
      ∃ i, i ∈ input self ∧
        ((∃ msg loc, e = FileNotFoundError msg ∧ location i = LPath loc ∧
                     path_exists fs loc = Ok false) ∨
         (∃ loc, location i = LPath loc ∧ path_exists fs loc = Raise e) ∨
         (∃ msg s, e = AttributeError msg ∧ location i = LStr s))) ∨
     (is_absolute (output_location self) = true ∧
      ∃ o msg s, o ∈ output self ∧ e = AttributeError msg ∧
                 location o = LStr s)) ∧
  (is_absolute (output_location self) = true →
   input self ≠ [] →
   (∀ i, i ∈ input self → ∃ s, location i = LStr s) →
   ∃ msg, verify_io fs self = Raise (AttributeError msg)).
Proof.
  split; [|split; [|split]].
  - intros e. unfold dict, mbind, result_bind.
    destruct (verify_io fs self) as [[]|e']; [by split|].
    split; by intros [= ->].
  - unfold dict, mbind, result_bind.
    destruct (verify_io fs self) as [[]|e']; [|naive_solver].
    split; eauto.
  - intros e. unfold verify_io, mbind, result_bind.
    destruct (is_absolute (output_location self)); [|intros [= <-]; eauto].
    destruct (check_all (verify_input fs) (input self)) as [[]|e'] eqn:Hin.
    + intros (o & Ho & Hcheck)%check_all_raise.
      unfold verify_output in Hcheck.
      destruct (location o) as [|loc|s] eqn:Hloc.
      * injection Hcheck as <-. eauto.
      * destruct (is_absolute loc); [done|]. injection Hcheck as <-. eauto.
      * injection Hcheck as <-. right. right. split; [done|]. eauto 10.
    + intros [= <-]. apply check_all_raise in Hin as (i & Hi & Hcheck).
      unfold verify_input, mbind, result_bind in Hcheck.
      destruct (location i) as [|loc|s] eqn:Hloc.
      * injection Hcheck as <-. eauto.
      * right. left. split; [done|]. exists i. split; [done|].
        destruct (path_exists fs loc) as [[]|e''] eqn:Hex.
        -- done.
        -- injection Hcheck as <-. left. eauto.
        -- injection Hcheck as <-. right. left. eauto.
      * injection Hcheck as <-. right. left. split; [done|].
        exists i. split; [done|]. right. right. eauto.
  - intros Habs Hne Hstr. unfold verify_io, mbind, result_bind.
    rewrite Habs. destruct (input self) as [|i ins]; [done|].
    destruct (Hstr i) as [s Hs]; [by left|].
    cbn [check_all]. unfold mbind, result_bind, verify_input.
    rewrite Hs. eauto.
Qed.

End Materialize.

Lemma dict_raises_as_verify_io_witness :
  ∃ msg, verify_io installed sparcc_at_string = Raise (AttributeError msg).
Proof.
  apply (dict_raises_as_verify_io installed sparcc_at_string).
  - reflexivity.
  - discriminate.
  - intros i ->%list_elem_of_singleton. by eexists.
Defined.

(** ** [merge] *)

(** A loop keeps a relation between the state before and the state after
    that is reflexive and transitive and that each round keeps. *)
Lemma for_each_related {S A} (R : S → S → Prop) (xs : list A)
    (body : A → M S unit) :
  (∀ s, R s s) →
  (∀ s1 s2 s3, R s1 s2 → R s2 s3 → R s1 s3) →
  (∀ x s r s', body x s = (r, s') → R s s') →
  ∀ s r s', for_each xs body s = (r, s') → R s s'.
Proof.
  intros Hrefl Htrans Hbody. induction xs as [|x xs IH]; intros s r s'; simpl.
  - intros [= _ <-]. apply Hrefl.
  - unfold mbind, M_bind. destruct (body x s) as [[[]|e] s1] eqn:Hx.
    + intros Hrest. eapply Htrans; [by eapply Hbody|by eapply IH].
    + intros [= _ <-]. by eapply Hbody.
Qed.

Section MergeMore.
Variable hash_str : string → Z.

Lemma merge_input_names ov s r s' :
  merge_input hash_str ov s = (r, s') → names_kept s s'.
Proof.
  intros [(_ & _ & ->)|[(item & _ & _ & _ & ->)|(item & Hitem & _ & _ & ->)]]
    %ConfigSpec.merge_input_cases; [done|done|].
  apply first_with_Some in Hitem as [Hin _].
  split; [|done]. intros dt. simpl. unfold io_add, IOType_eq.
  by apply replace_attrs.
Qed.

Lemma formats_narrowed_refl s : formats_narrowed s s.
Proof. intros i Hi. exists i. by repeat split. Qed.

Lemma merge_input_narrows ov s r s' :
  merge_input hash_str ov s = (r, s') → formats_narrowed s s'.
Proof.
  intros [(_ & _ & ->)|[(item & _ & _ & _ & ->)|(item & Hitem & Hacc & _ & ->)]]
    %ConfigSpec.merge_input_cases; [apply formats_narrowed_refl..|].
  apply first_with_Some in Hitem as [Hin _].
  intros i'. simpl. unfold io_add, IOType_eq. rewrite set_add_elem.
  intros [->|Hi'].
  - exists item. by split.
  - exists i'. split; [by eapply set_discard_subset|done].
Qed.

Lemma merge_parameters_cases o s r s' :
  merge_parameters hash_str o s = (r, s') →
  ((∃ msg, r = Raise (KeyError msg)) ∧ s' = s ∧
   ∀ nm, o !! "process" = Some (VStr nm) → nm ∉ process <$> parameters s) ∨
  (∃ nm item,
     o !! "process" = Some (VStr nm) ∧
     first_with process nm (parameters s) = Some item ∧
     r = Ok tt ∧
     s' = set_parameters
            (parameters_add hash_str
               {| process := nm; params := dict_merge (params item) o |}
               (set_discard (Parameters_hash hash_str) Parameters_eq item
                  (parameters s)))
            s).
Proof.
  destruct (o !! "process") as [v|] eqn:Ho.
  2:{ unfold merge_parameters, mbind, M_bind, lift. rewrite Ho. simpl.
      intros [= <- <-]. left. split; [eauto|]. split; [done|].
      intros nm Hnm. congruence. }
  assert ((∃ nm, v = VStr nm) ∨ ∀ nm, v ≠ VStr nm) as [[nm ->]|Hv].
  { destruct v; eauto. }
  - destruct (first_with process nm (parameters s)) as [item|] eqn:Hitem.
    + rewrite (ConfigSpec.merge_parameters_step hash_str o nm s item Ho Hitem).
      intros [= <- <-]. right. eauto 10.
    + unfold merge_parameters, mbind, M_bind, lift. rewrite Ho. simpl.
      unfold get. simpl. rewrite Hitem. simpl. intros [= <- <-]. left.
      split; [eauto|]. split; [done|]. intros ? [= <-].
      by apply first_with_None.
  - unfold merge_parameters, mbind, M_bind, lift. rewrite Ho. simpl.
    destruct v; try (intros [= <- <-]; left; split; [eauto|]; split; [done|];
                     by intros ? [= ]).
    by destruct (Hv s0).
Qed.

Lemma merge_parameters_names o s r s' :
  merge_parameters hash_str o s = (r, s') → names_kept s s'.
Proof.
  intros [(_ & -> & _)|(nm & item & _ & Hitem & _ & ->)]%merge_parameters_cases;
    [done|].
  apply first_with_Some in Hitem as [Hin Hproc].
  split; [done|]. split; [|done]. intros p. simpl.
  unfold parameters_add.
  by apply (keyed_replace_attrs _ _ _ ConfigSpec.Parameters_eq_process).
Qed.

Lemma names_kept_refl s : names_kept s s.
Proof. done. Qed.

Lemma names_kept_trans s1 s2 s3 :
  names_kept s1 s2 → names_kept s2 s3 → names_kept s1 s3.
Proof.
  intros (H1 & H2 & ? & ? & ? & ? & ?) (H1' & H2' & ? & ? & ? & ? & ?).
  split; [|split; [|repeat split; congruence]].
  - intros dt. by rewrite H1', H1.
  - intros p. by rewrite H2', H2.
Qed.

Lemma formats_narrowed_trans s1 s2 s3 :
  formats_narrowed s1 s2 → formats_narrowed s2 s3 → formats_narrowed s1 s3.
Proof.
  intros H12 H23 i3 Hi3.
  destruct (H23 i3 Hi3) as (i2 & Hi2 & Hdt2 & Hf2).
  destruct (H12 i2 Hi2) as (i1 & Hi1 & Hdt1 & Hf1).
  exists i1. split; [done|]. split; [congruence|]. auto.
Qed.

(** The two loops of [merge]. *)
Lemma merge_split us s r s' :
  merge hash_str us s = (r, s') →
  ∃ r1 s1,
    for_each (us_input us) (merge_input hash_str) s = (r1, s1) ∧
    ((∃ e, r1 = Raise e ∧ r = Raise e ∧ s' = s1) ∨
     (r1 = Ok tt ∧
      for_each (us_parameters us) (merge_parameters hash_str) s1 = (r, s'))).
Proof.
  unfold merge, mbind, M_bind.
  destruct (for_each (us_input us) (merge_input hash_str) s) as [[[]|e] s1].
  - intros Hrest. eexists _, _. split; [done|]. by right.
  - intros [= <- <-]. eexists _, _. split; [done|]. left. eauto.
Qed.

(** X14.  Whatever [merge] returns or raises, it leaves the descriptor
    with the input datatypes and the process names it had: no input and
    no parameter record is added or lost by name, and the outputs, the
    name and the directories are untouched. *)
Theorem merge_keeps_names (us : UserSettings) (self self' : Params)
    (r : result unit) :
  merge hash_str us self = (r, self') →
  (∀ dt, dt ∈ datatype <$> input self' ↔ dt ∈ datatype <$> input self) ∧
  (∀ p, p ∈ process <$> parameters self'
        ↔ p ∈ process <$> parameters self) ∧
  output self' = output self ∧ name self' = name self ∧
  root self' = root self ∧ env self' = env self ∧
  output_location self' = output_location self.
Proof.
  intros (r1 & s1 & Hin & Hrest)%merge_split.
  assert (names_kept self s1) as H1.
  { eapply (for_each_related names_kept); [apply names_kept_refl
      |apply names_kept_trans|apply merge_input_names|done]. }
  destruct Hrest as [(e & _ & _ & ->)|[_ Hpar]]; [done|].
  eapply names_kept_trans; [done|].
  eapply (for_each_related names_kept); [apply names_kept_refl
    |apply names_kept_trans|apply merge_parameters_names|done].
Qed.

(** X15.  [merge] can only narrow the formats an input accepts: whatever
    it returns or raises, every input it leaves has the datatype of an
    input that was there before, and each of its formats was accepted by
    that input. *)
Theorem merge_narrows_formats (us : UserSettings) (self self' : Params)
    (r : result unit) :
  merge hash_str us self = (r, self') →
  ∀ i', i' ∈ input self' →
    ∃ i, i ∈ input self ∧ datatype i = datatype i' ∧
         ∀ f, f ∈ format i' → f ∈ format i.
Proof.
  intros (r1 & s1 & Hin & Hrest)%merge_split.
  assert (formats_narrowed self s1) as H1.
  { eapply (for_each_related formats_narrowed);
      [apply formats_narrowed_refl|apply formats_narrowed_trans
      |apply merge_input_narrows|done]. }
  destruct Hrest as [(e & _ & _ & ->)|[_ Hpar]]; [done|].
  assert (input self' = input s1) as ->; [|done].
  apply (PyFacts.for_each_preserves beside_parameters) in Hpar.
  - by injection Hpar.
  - apply ConfigSpec.merge_parameters_beside.
Qed.

(** X16.  With distinct input datatypes, an input override that names an
    input and asks only for formats that input accepts is applied: [get]
    then returns the input with the formats and the location of the
    override (none, for an override with an empty format list), and
    returns for every other datatype what it returned before. *)
Theorem merge_accepted_override (self : Params) (ov : InputOverride)
    (item : IOType) :
  NoDup (datatype <$> input self) →
  get self (ov_datatype ov) "input" = Ok (IsIO item) →
  (∀ f, f ∈ ov_format ov → f ∈ format item) →
  ∃ self',
    merge hash_str {| us_input := [ov]; us_parameters := [] |} self
      = (Ok tt, self') ∧
    get self' (ov_datatype ov) "input" =
      Ok (IsIO {| datatype := ov_datatype ov; format := ov_format ov;
                  location := ov_location ov |}) ∧
    (∀ other, other ≠ ov_datatype ov →
       get self' other "input" = get self other "input") ∧
    beside_input self' = beside_input self.
Proof.
  intros Hnd Hget Hacc.
  assert (first_with datatype (ov_datatype ov) (input self) = Some item)
    as Hitem.
  { unfold get in Hget. simpl in Hget.
    destruct (first_with datatype (ov_datatype ov) (input self));
      by simplify_eq/=. }
  pose proof (first_with_Some _ _ _ _ Hitem) as [Hin Hdt].
  destruct (merge_input hash_str ov self) as [r s'] eqn:Hstep.
  apply ConfigSpec.merge_input_cases in Hstep as Hcases.
  destruct Hcases as [(Hnone & _)|[(item' & Hitem' & (f & Hf & Hnot) & _)
                                  |(item' & Hitem' & _ & -> & ->)]].
  - congruence.
  - assert (item' = item) as -> by congruence. destruct Hnot. auto.
  - assert (item' = item) as -> by congruence.
    set (u := {| datatype := datatype item; format := ov_format ov;
                 location := ov_location ov |}) in *.
    destruct (replace_lookup (IOType_hash hash_str) datatype item u
                (input self) Hnd Hin eq_refl) as (Hnew & Hother & _).
    eexists. split.
    { unfold merge. simpl. unfold mbind, M_bind. rewrite Hstep. reflexivity. }
    unfold get, io_add, IOType_eq. subst u. simpl in *. rewrite Hdt in *.
    split; [by rewrite Hnew|]. split; [|done].
    intros other Hne. by rewrite Hother.
Qed.

(** X17.  For a descriptor whose inputs have distinct datatypes: when the
    input overrides are accepted, a first parameter override without the
    key [process], or whose [process] is not the name of a parameter
    record, makes [merge] raise [KeyError]; the input overrides, which
    come first, stay applied, the parameter records and the outputs are
    as before the call, and the inputs still have distinct datatypes. *)
Theorem merge_unknown_process (self self1 : Params) (us : UserSettings)
    (o : gmap string pyval) (rest : list (gmap string pyval)) :
  NoDup (datatype <$> input self) →
  for_each (us_input us) (merge_input hash_str) self = (Ok tt, self1) →
  us_parameters us = o :: rest →
  (∀ nm, o !! "process" = Some (VStr nm) → nm ∉ process <$> parameters self) →
  (∃ msg, merge hash_str us self = (Raise (KeyError msg), self1)) ∧
  parameters self1 = parameters self ∧
  output self1 = output self ∧
  NoDup (datatype <$> input self1).
Proof.
  intros Hnd Hin Hsplit Hunknown.
  assert (parameters self1 = parameters self ∧ output self1 = output self)
    as [Hsame Hout].
  { apply ConfigSpec.merge_inputs_beside in Hin. by injection Hin. }
  split; [|split; [done|split; [done|]]].
  - unfold merge. rewrite (PyFacts.bind_ok _ _ _ _ _ Hin). rewrite Hsplit.
    simpl.
    destruct (merge_parameters hash_str o self1) as [r s'] eqn:Hstep.
    apply merge_parameters_cases in Hstep as Hcases.
    destruct Hcases as [((msg & ->) & -> & _)|(nm & item & Ho & Hitem & _)].
    + exists msg. by apply PyFacts.bind_raise.
    + destruct (Hunknown nm Ho). rewrite <-Hsame.
      apply first_with_is_Some. eauto.
  - by eapply ConfigSpec.merge_inputs_distinct.
Qed.

End MergeMore.

Lemma merge_keeps_names_witness :
  ("lineage" ∈ datatype <$>
      input (merge sample_hash second_override_rejected group_taxa).2
   ↔ "lineage" ∈ datatype <$> input group_taxa) ∧
  output (merge sample_hash second_override_rejected group_taxa).2
    = output group_taxa.
Proof.
  destruct (merge_keeps_names sample_hash second_override_rejected group_taxa
              (merge sample_hash second_override_rejected group_taxa).2
              (merge sample_hash second_override_rejected group_taxa).1)
    as (Hdt & _ & Hout & _).
  - apply surjective_pairing.
  - split; [apply Hdt|exact Hout].
Defined.

Lemma merge_narrows_formats_witness :
  ∃ i, i ∈ input group_taxa ∧
       datatype i = "otu_table" ∧
       ∀ f, f ∈ ["tsv"] → f ∈ format i.
Proof.
  apply (merge_narrows_formats sample_hash second_override_rejected group_taxa
           (merge sample_hash second_override_rejected group_taxa).2
           (merge sample_hash second_override_rejected group_taxa).1
           (surjective_pairing _)
           {| datatype := "otu_table"; format := ["tsv"];
              location := LPath "/data/otu.tsv" |}).
  right. by left.
Defined.

Lemma merge_accepted_override_witness :
  ∃ self',
    merge sample_hash
      {| us_input := [ {| ov_datatype := "otu_table"; ov_format := ["tsv"];
                          ov_location := LPath "/data/otu.tsv" |} ];
         us_parameters := [] |} group_taxa = (Ok tt, self') ∧
    get self' "otu_table" "input" =
      Ok (IsIO {| datatype := "otu_table"; format := ["tsv"];
                  location := LPath "/data/otu.tsv" |}) ∧
    (∀ other, other ≠ "otu_table" →
       get self' other "input" = get group_taxa other "input") ∧
    beside_input self' = beside_input group_taxa.
Proof.
  apply (merge_accepted_override sample_hash group_taxa
           {| ov_datatype := "otu_table"; ov_format := ["tsv"];
              ov_location := LPath "/data/otu.tsv" |}
           {| datatype := "otu_table"; format := ["biom"; "tsv"];
              location := LNone |}).
  - apply NoDup_cons. split; [|apply NoDup_singleton].
    by intros [= ]%list_elem_of_singleton.
  - reflexivity.
  - intros f ->%list_elem_of_singleton. right. by left.
Defined.

Lemma merge_unknown_process_witness :
  ∃ msg,
    merge sample_hash
      {| us_input := []; us_parameters := [ {[ "level" := VStr "Family" ]} ] |}
      group_taxa = (Raise (KeyError msg), group_taxa).
Proof.
  apply (merge_unknown_process sample_hash group_taxa group_taxa
           {| us_input := [];
              us_parameters := [ {[ "level" := VStr "Family" ]} ] |}
           {[ "level" := VStr "Family" ]} []).
  - apply NoDup_cons. split; [|apply NoDup_singleton].
    by intros [= ]%list_elem_of_singleton.
  - reflexivity.
  - reflexivity.
  - intros nm Hnm. by vm_compute in Hnm.
Defined.

(** ** Construction *)

Lemma fold_result_invariant {A B} (P : B → Prop) (step : B → A → result B)
    (xs : list A) :
  (∀ acc x acc', x ∈ xs → P acc → step acc x = Ok acc' → P acc') →
  ∀ acc acc', P acc → fold_result step xs acc = Ok acc' → P acc'.
Proof.
  induction xs as [|x xs IH]; intros Hstep acc acc' Hacc; simpl.
  - by intros [= <-].
  - unfold mbind, result_bind. destruct (step acc x) as [acc1|] eqn:Hx; [|done].
    apply IH.
    + intros a y a' Hy. apply Hstep. by right.
    + eapply Hstep; [by left|done..].
Qed.

Section ConstructionMore.
Variable hash_str : string → Z.

(** One item of an input list: the record that is added has no location,
    and the datatype of the item. *)
Lemma process_input_item acc item acc' :
  _process_io_item hash_str "input" ["datatype"; "format"] acc item = Ok acc' →
  ∃ d io,
    item = VDict d ∧
    acc' = io_add hash_str io acc ∧
    location io = LNone ∧
    d !! "datatype" = Some (VStr (datatype io)).
Proof.
  unfold _process_io_item.
  destruct item as [| | |s| |l|d]; try done;
    [by repeat case_match|by repeat case_match|].
  unfold _process_io_dict, mbind, result_bind. simpl.
  assert (filter (λ kv : string * pyval, kv.1 ∈ ["datatype"; "format"]) d
            !! "location" = None) as Hloc.
  { apply map_lookup_filter_None. right. intros v _. simpl.
    intros [?|[?|?%elem_of_nil]%elem_of_cons]%elem_of_cons; done. }
  rewrite Hloc. simpl. intros H.
  repeat case_match; simplify_eq.
  eexists d, _. split; [done|]. split; [done|]. split; [done|]. simpl.
  match goal with
  | Hdt : of_option (filter _ d !! "datatype") _ = Ok ?v,
    Hstr : as_str ?v = Ok ?dt |- _ =>
      destruct (filter _ d !! "datatype") as [v'|] eqn:Hlook; [|done];
      simpl in Hdt; simplify_eq;
      destruct v; try done; simpl in Hstr; simplify_eq;
      by apply map_lookup_filter_Some in Hlook as [? _]
  end.
Qed.

Lemma process_io_input_locations data ios :
  _process_io hash_str data "input" = Ok ios →
  ∀ io, io ∈ ios → location io = LNone.
Proof.
  unfold _process_io. simpl.
  destruct data as [| | | | |items|]; try done.
  apply (fold_result_invariant
           (λ acc : list IOType, ∀ io, io ∈ acc → location io = LNone)).
  - intros acc item acc' _ Hacc (d & io0 & _ & -> & Hloc & _)
      %process_input_item io.
    unfold io_add, IOType_eq. rewrite set_add_elem. intros [->|Hio]; auto.
  - by intros io ?%elem_of_nil.
Qed.

(** X18.  Every input that [_process_io] makes has no location: the
    location field has a default, so it is not among the fields that are
    read, and a location that the catalog gives for an input is accepted
    and dropped.  The input data must be a list, and each input has the
    datatype of one of its items. *)
Theorem process_io_inputs_unlocated (data : pyval) (ios : list IOType) :
  _process_io hash_str data "input" = Ok ios →
  ∃ items,
    data = VList items ∧
    ∀ io, io ∈ ios →
      location io = LNone ∧
      ∃ d, VDict d ∈ items ∧ d !! "datatype" = Some (VStr (datatype io)).
Proof.
  unfold _process_io. simpl.
  destruct data as [| | | | |items|]; try done.
  intros Hfold. exists items. split; [done|].
  revert Hfold.
  apply (fold_result_invariant
           (λ acc : list IOType, ∀ io, io ∈ acc →
              location io = LNone ∧
              ∃ d, VDict d ∈ items ∧ d !! "datatype" = Some (VStr (datatype io)))).
  - intros acc item acc' Hitem Hacc (d & io0 & -> & -> & Hloc & Hdt)
      %process_input_item io.
    unfold io_add, IOType_eq. rewrite set_add_elem. intros [->|Hio]; [|auto].
    split; [done|]. eauto.
  - by intros io ?%elem_of_nil.
Qed.

(** No character is the name of a field. *)
Lemma str_chars_no_field s :
  s ≠ "" →
  forallb (λ field, bool_decide (field ∈ _fields)) (str_chars s) = false.
Proof.
  destruct s as [|c s]; [done|]. intros _. simpl.
  rewrite bool_decide_eq_false_2; [done|]. unfold _fields. intros H.
  repeat (apply elem_of_cons in H as [H|H]; [discriminate|]).
  by apply elem_of_nil in H.
Qed.

Lemma str_contains_nonempty sub s :
  sub ≠ "" → str_contains sub s = true → s ≠ "".
Proof. intros Hsub H ->. by destruct sub. Qed.

(** X25.  An item of an input or output list that is a string, where a
    dictionary is expected, is rejected with [ValueError], whatever the
    string and whatever follows it: on a string the test [field not in
    item] looks for a substring, and a string that has every required
    field name in it is made of characters, none of which is a field
    name. *)
Theorem string_item_rejected (s : string) (rest : list pyval)
    (category : string) :
  category = "input" ∨ category = "output" →
  ∃ msg,
    _process_io hash_str (VList (VStr s :: rest)) category
      = Raise (ValueError msg).
Proof.
  intros Hcat.
  assert (str_contains "datatype" s = true →
          forallb (λ field, bool_decide (field ∈ _fields)) (str_chars s)
            = false) as Hchars.
  { intros H. apply str_chars_no_field.
    by apply (str_contains_nonempty "datatype"). }
  destruct Hcat as [->| ->]; unfold _process_io; simpl;
    unfold mbind, result_bind;
    (destruct (str_contains "datatype" s); simpl;
     [rewrite Hchars by done; simpl|eauto]);
    repeat case_match; simplify_eq; eauto.
Qed.

End ConstructionMore.

Lemma string_item_rejected_witness :
  ∃ msg,
    _process_io sample_hash (VList [VStr "datatype format"]) "input"
      = Raise (ValueError msg).
Proof.
  apply (string_item_rejected sample_hash "datatype format" [] "input").
  by left.
Defined.

Lemma process_io_inputs_unlocated_witness :
  ∃ items,
    VList [ VDict {[ "datatype" := VStr "otu_table";
                     "format" := VList [VStr "biom"];
                     "location" := VStr "ignored.biom" ]} ] = VList items ∧
    ∀ io, io ∈ [ {| datatype := "otu_table"; format := ["biom"];
                    location := LNone |} ] →
      location io = LNone ∧
      ∃ d, VDict d ∈ items ∧ d !! "datatype" = Some (VStr (datatype io)).
Proof.
  apply (process_io_inputs_unlocated sample_hash). by vm_compute.
Defined.

Section Descriptor.
Variables (hash_str : string → Z) (fs : FileSystem).

Lemma add_parameters_no_process acc curr acc' :
  add_parameters hash_str acc curr = Ok acc' →
  (∀ r, r ∈ acc → params r !! "process" = None) →
  ∀ r, r ∈ acc' → params r !! "process" = None.
Proof.
  unfold add_parameters, mbind, result_bind.
  destruct curr as [| | |s| |l|d]; try done; [by case_match|by case_match|].
  destruct (d !! "process") as [v|]; [|done].
  destruct v as [| | |nm| | |]; try done. simpl.
  intros [= <-] Hacc r. unfold parameters_add.
  intros [->|Hr]%keyed_add_subset; [|auto]. simpl.
  apply map_lookup_filter_None. right. intros v _. simpl. by intros [].
Qed.

(** What a descriptor that was constructed is made of. *)
Lemma Params_init_parts key value p :
  Params_init hash_str fs key value = Ok p →
  name p = key ∧
  (∃ r, (value !! "root" = Some (VStr r) ∨ value !! "root" = Some (VPath r)) ∧
        root p = joinpath (PIPELINE_DIR fs) r) ∧
  path_exists fs (root p) = Ok true ∧ path_is_dir fs (root p) = Ok true ∧
  (∃ data, value !! "input" = Some data ∧
           _process_io hash_str data "input" = Ok (input p)) ∧
  (∃ data, value !! "output" = Some data ∧
           _process_io hash_str data "output" = Ok (output p)) ∧
  (∃ curr_params, value !! "parameters" = Some (VList curr_params) ∧
           fold_result (add_parameters hash_str) curr_params []
             = Ok (parameters p)).
Proof.
  unfold Params_init, mbind, result_bind. intros H.
  destruct (forallb _ _req_keys); [|done].
  destruct (value !! "root") as [rv|] eqn:Hroot; [|done]. simpl in H.
  destruct (as_path rv) as [r|] eqn:Hr; [|done].
  unfold check_dir, mbind, result_bind in H.
  destruct (path_exists fs (joinpath (PIPELINE_DIR fs) r)) as [[]|] eqn:Hex;
    [|done..].
  destruct (path_is_dir fs (joinpath (PIPELINE_DIR fs) r)) as [[]|] eqn:Hdir;
    [|done..].
  simpl in H.
  match type of H with
  | match ?envr with _ => _ end = _ => destruct envr as [env_|]; [|done]
  end.
  destruct (value !! "output_location") as [ov|]; [|done]. simpl in H.
  destruct (as_path ov) as [out_loc|]; [|done].
  destruct (value !! "input") as [idata|]; [|done]. simpl in H.
  destruct (_process_io hash_str idata "input") as [ins|] eqn:Hins; [|done].
  destruct (value !! "output") as [odata|]; [|done]. simpl in H.
  destruct (_process_io hash_str odata "output") as [outs|] eqn:Houts; [|done].
  destruct (value !! "parameters") as [pdata|]; [|done]. simpl in H.
  destruct pdata as [| | | | |curr_params|]; try done.
  destruct (fold_result (add_parameters hash_str) curr_params [])
    as [pars|] eqn:Hpars; [|done].
  injection H as <-. simpl. split; [done|]. split.
  { exists r. split; [|done]. destruct rv; simplify_eq/=; eauto. }
  repeat split; eauto.
Qed.

(** X19.  A descriptor that [Params] constructs has the catalog key as its
    name and a root directory under the installation directory that
    exists; none of its inputs has a location; and the param map of each
    of its parameter records is the catalog entry without the key
    [process]. *)
Theorem Params_init_descriptor (key : string) (value : gmap string pyval)
    (p : Params) :
  Params_init hash_str fs key value = Ok p →
  name p = key ∧
  (∃ r, (value !! "root" = Some (VStr r) ∨ value !! "root" = Some (VPath r)) ∧
        root p = joinpath (PIPELINE_DIR fs) r) ∧
  path_exists fs (root p) = Ok true ∧ path_is_dir fs (root p) = Ok true ∧
  (∀ i, i ∈ input p → location i = LNone) ∧
  (∀ r, r ∈ parameters p → params r !! "process" = None).
Proof.
  intros (Hname & Hroot & Hex & Hdir & (idata & _ & Hins) & _
          & (curr & _ & Hpars))%Params_init_parts.
  split; [done|]. split; [done|]. split; [done|]. split; [done|]. split.
  - by apply (process_io_input_locations hash_str idata).
  - revert Hpars.
    apply (fold_result_invariant
             (λ acc : list Parameters, ∀ r, r ∈ acc →
                params r !! "process" = None)).
    + intros acc x acc' _ Hacc Hstep.
      by apply (add_parameters_no_process acc x).
    + by intros r ?%elem_of_nil.
Qed.

(** X20.  A descriptor with an input cannot be materialised as it comes
    from the constructor: on any file system [verify_io] and [dict] raise
    [ValueError], until the inputs are given locations. *)
Theorem fresh_descriptor_not_ready (key : string) (value : gmap string pyval)
    (p : Params) (fs' : FileSystem) :
  Params_init hash_str fs key value = Ok p →
  input p ≠ [] →
  ∃ msg, verify_io fs' p = Raise (ValueError msg) ∧
         dict fs' p = Raise (ValueError msg).
Proof.
  intros (_ & _ & _ & _ & (idata & _ & Hins) & _)%Params_init_parts Hne.
  pose proof (process_io_input_locations hash_str idata _ Hins) as Hunlocated.
  assert (∃ msg, verify_io fs' p = Raise (ValueError msg)) as [msg Hv].
  { unfold verify_io, mbind, result_bind.
    destruct (is_absolute (output_location p)); [|eauto].
    destruct (input p) as [|i ins] eqn:Hin; [done|].
    assert (location i = LNone) as Hloc by (apply Hunlocated; by left).
    cbn [check_all]. unfold mbind, result_bind, verify_input.
    rewrite Hloc. eauto. }
  exists msg. split; [done|].
  unfold dict, mbind, result_bind. by rewrite Hv.
Qed.

(** X21.  A catalog entry that lacks one of the keys [root],
    [output_location], [input], [output] and [parameters] is rejected with
    [ValueError], whatever the file system holds. *)
Theorem Params_init_missing_key (key k : string) (value : gmap string pyval) :
  k ∈ _req_keys → value !! k = None →
  Params_init hash_str fs key value =
    Raise (ValueError "Invalid process data. required key not found").
Proof.
  intros Hk Hnone. unfold Params_init, mbind, result_bind.
  destruct (forallb _ _req_keys) eqn:Hall; [|done].
  rewrite forallb_forall in Hall.
  specialize (Hall k (proj1 (list_elem_of_In _ _) Hk)).
  apply bool_decide_eq_true in Hall. rewrite Hnone in Hall.
  by destruct Hall.
Qed.

End Descriptor.

Lemma Params_init_descriptor_witness :
  ∃ p, Params_init sample_hash installed "sparcc" sparcc_entry = Ok p ∧
       name p = "sparcc" ∧
       (∀ i, i ∈ input p → location i = LNone) ∧
       (∀ r, r ∈ parameters p → params r !! "process" = None).
Proof.
  destruct (Params_init sample_hash installed "sparcc" sparcc_entry)
    as [p|] eqn:Hp; [|by vm_compute in Hp].
  exists p. split; [reflexivity|].
  destruct (Params_init_descriptor sample_hash installed "sparcc"
              sparcc_entry p Hp) as (Hname & _ & _ & _ & Hin & Hpar).
  split; [exact Hname|]. split; [exact Hin|exact Hpar].
Defined.

Lemma fresh_descriptor_not_ready_witness :
  ∃ p msg,
    Params_init sample_hash installed "sparcc" sparcc_entry = Ok p ∧
    verify_io installed p = Raise (ValueError msg) ∧
    dict installed p = Raise (ValueError msg).
Proof.
  destruct (Params_init sample_hash installed "sparcc" sparcc_entry)
    as [p|] eqn:Hp; [|by vm_compute in Hp].
  destruct (fresh_descriptor_not_ready sample_hash installed "sparcc"
              sparcc_entry p installed Hp) as (msg & Hverify & Hdict).
  - pose proof Hp as Hp'. vm_compute in Hp'. by injection Hp' as <-.
  - exists p, msg. split; [reflexivity|]. split; [exact Hverify|exact Hdict].
Defined.

Lemma Params_init_missing_key_witness :
  Params_init sample_hash installed "sparcc" (delete "output" sparcc_entry) =
    Raise (ValueError "Invalid process data. required key not found").
Proof.
  apply (Params_init_missing_key sample_hash installed "sparcc" "output").
  - do 3 right. by left.
  - by vm_compute.
Defined.

(** ** Attaching, then materialising *)

Section AttachMore.
Variables (hash_str : string → Z) (fs : FileSystem).

(** X22.  A stage whose inputs have distinct datatypes, each produced by
    the predecessor at a location that exists, and whose own output
    directory and output locations are absolute, is ready once it is
    attached: [attach_to] succeeds and [verify_io] passes on what it
    leaves. *)
Theorem attached_is_ready (previous self : Params) :
  NoDup (datatype <$> input self) →
  (∀ i, i ∈ input self → datatype i ∈ datatype <$> output previous) →
  (∀ o, o ∈ output previous →
     ∃ loc, location o = LPath loc ∧ path_exists fs loc = Ok true) →
  is_absolute (output_location self) = true →
  (∀ o, o ∈ output self →
     ∃ loc, location o = LPath loc ∧ is_absolute loc = true) →
  ∃ self',
    attach_to hash_str previous self = (Ok tt, self') ∧
    verify_io fs self' = Ok tt.
Proof.
  intros Hnd Hfound Hprev Habs Hout.
  eexists. split; [by apply ConfigSpec.attach_to_ok|].
  apply ConfigSpec.verify_io_ok. simpl. split; [done|]. split; [|done].
  intros e (i & -> & Hi)%list_elem_of_fmap.
  destruct (proj2 (first_with_is_Some datatype (datatype i) (output previous))
              (Hfound i Hi)) as [o Ho].
  rewrite (ConfigSpec.attached_found previous i o Ho). simpl.
  apply Hprev. by apply first_with_Some in Ho as [? _].
Qed.

End AttachMore.

Lemma attached_is_ready_witness :
  ∃ self',
    attach_to sample_hash group_taxa sparcc_unattached = (Ok tt, self') ∧
    verify_io after_group_taxa self' = Ok tt.
Proof.
  apply (attached_is_ready sample_hash after_group_taxa group_taxa
           sparcc_unattached).
  - apply NoDup_singleton.
  - intros i ->%list_elem_of_singleton. by left.
  - intros o ->%list_elem_of_singleton. by eexists.
  - reflexivity.
  - intros o ->%list_elem_of_singleton. by eexists.
Defined.

(** ** Looking stages up in a registry *)

Section RegistryMore.
Variables (hash_str : string → Z) (fs : FileSystem).

(** The objects the loop adds, item by item. *)
Lemma ParamsSet_loop_values items :
  ∀ n ps,
  (∀ o, o ∈ ps → addr o < n) →
  (∀ key v, (key, v) ∈ items →
     ∃ d p, v = VDict d ∧ Params_init hash_str fs key d = Ok p) →
  ∃ objs,
    fold_result (ParamsSet_step hash_str fs) items (n, ps)
      = Ok (n + length items, ps ++ objs) ∧
    Forall2 (λ o kv, ∃ d, kv.2 = VDict d ∧
                          Params_init hash_str fs kv.1 d = Ok (value o))
      objs items.
Proof.
  induction items as [|[key v] items IH]; intros n ps Hlt Hvalid.
  - exists []. simpl. rewrite Nat.add_0_r, app_nil_r. by split.
  - destruct (Hvalid key v) as (d & p & -> & Hinit); [by left|].
    destruct (IH (S n) (ps ++ [{| addr := n; value := p |}]))
      as (objs & Hrun & Hall).
    { intros o [Ho| ->%list_elem_of_singleton]%elem_of_app; simpl.
      - specialize (Hlt o Ho). lia.
      - lia. }
    { intros key' v' Hin. apply Hvalid. by right. }
    exists ({| addr := n; value := p |} :: objs). split.
    + simpl. unfold mbind at 1, result_bind at 1. simpl.
      rewrite Hinit. simpl.
      rewrite ConfigSpec.new_object_not_contained by done.
      unfold mbind, result_bind, processes_add, set_add.
      fold (processes_contains hash_str {| addr := n; value := p |} ps).
      rewrite ConfigSpec.new_object_not_contained by done.
      unfold mbind, result_bind in Hrun. rewrite Hrun.
      by rewrite Nat.add_succ_r, <-app_assoc.
    + constructor; [|done]. simpl. eauto.
Qed.

(** X23.  In a registry built from a catalog of valid definitions, a
    lookup by a name of the catalog returns the descriptor constructed
    from the entry of that name, and membership holds for it; a name that
    is not in the catalog is not a member, and its lookup raises
    [KeyError]. *)
Theorem registry_lookup (data : gmap string pyval) :
  (∀ key v, data !! key = Some v →
     ∃ d p, v = VDict d ∧ Params_init hash_str fs key d = Ok p) →
  ∃ registry,
    ParamsSet_init hash_str fs data = Ok registry ∧
    (∀ key d, data !! key = Some (VDict d) →
       ∃ p, Params_init hash_str fs key d = Ok p ∧
            ParamsSet_getitem registry key = Ok p ∧
            ParamsSet_contains registry key = true) ∧
    (∀ key, data !! key = None →
       ParamsSet_contains registry key = false ∧
       ∃ msg, ParamsSet_getitem registry key = Raise (KeyError msg)).
Proof.
  intros Hvalid.
  destruct (ParamsSet_loop_values (map_to_list data) 0 [])
    as (objs & Hrun & Hall).
  { by intros o ?%elem_of_nil. }
  { intros key v Hin%elem_of_map_to_list. by apply Hvalid. }
  assert ((λ o : object Params, name (value o)) <$> objs
          = (map_to_list data).*1) as Hnames.
  { clear Hrun. induction Hall as [|o [k v] objs items (d & _ & Hinit) _ IH];
      [done|]. rewrite !fmap_cons. f_equal; [|exact IH].
    simpl in *. by eapply ConfigSpec.Params_init_name. }
  exists {| processes := objs |}. split; [|split].
  - unfold ParamsSet_init, ParamsSet_init_items, mbind, result_bind.
    by rewrite Hrun.
  - intros key d Hkey.
    apply elem_of_map_to_list in Hkey.
    apply list_elem_of_lookup in Hkey as [n Hn].
    destruct (Forall2_lookup_r _ _ _ _ _ Hall Hn) as (o & Ho & d' & Hd' & Hinit).
    simpl in *. injection Hd' as <-.
    exists (value o). split; [done|].
    assert (name (value o) = key) as Hname
      by (by eapply ConfigSpec.Params_init_name).
    assert (o ∈ objs) as Hin by (by eapply list_elem_of_lookup_2).
    split.
    + unfold ParamsSet_getitem. simpl. rewrite <-Hname.
      rewrite (first_with_unique (λ o, name (value o)) o objs); [done| |done].
      rewrite Hnames. apply NoDup_fst_map_to_list.
    + unfold ParamsSet_contains. apply bool_decide_eq_true. simpl.
      rewrite <-Hname. by apply (list_elem_of_fmap_2 (λ o, name (value o))).
  - intros key Hkey.
    assert (key ∉ (λ o : object Params, name (value o)) <$> objs) as Hnot.
    { rewrite Hnames. intros ((k & v) & -> & Hin%elem_of_map_to_list)
        %list_elem_of_fmap. simpl in *. congruence. }
    split.
    + unfold ParamsSet_contains. by apply bool_decide_eq_false.
    + unfold ParamsSet_getitem. simpl.
      rewrite (proj2 (first_with_None _ key objs) Hnot). simpl. eauto.
Qed.

End RegistryMore.

Lemma registry_lookup_witness :
  ∃ registry p,
    ParamsSet_init sample_hash installed small_catalog = Ok registry ∧
    Params_init sample_hash installed "sparcc" sparcc_entry = Ok p ∧
    ParamsSet_getitem registry "sparcc" = Ok p ∧
    ParamsSet_contains registry "sparcc" = true ∧
    ParamsSet_contains registry "network" = false.
Proof.
  destruct (registry_lookup sample_hash installed small_catalog)
    as (registry & Hinit & Hfound & Hmissing).
  - intros key v Hlook. unfold small_catalog in Hlook.
    apply lookup_insert_Some in Hlook as [[<- <-]|[_ Hlook]].
    + eexists _, _. split; [reflexivity|]. by vm_compute.
    + apply lookup_singleton_Some in Hlook as [<- <-].
      eexists _, _. split; [reflexivity|]. by vm_compute.
  - destruct (Hfound "sparcc" sparcc_entry) as (p & Hp & Hget & Hin);
      [reflexivity|].
    destruct (Hmissing "network") as [Hout _]; [reflexivity|].
    exists registry, p.
    split; [exact Hinit|]. split; [exact Hp|]. split; [exact Hget|].
    split; [exact Hin|exact Hout].
Defined.

(** ** The names of an external catalog *)

Lemma extends_by_insert (dp : gmap string pyval) k v :
  extends_by (λ nm v', nm = k ∧ v' = v) dp (<[k := v]> dp).
Proof.
  split.
  - intros nm. rewrite lookup_insert. case_decide; subst; naive_solver.
  - intros nm v'. rewrite lookup_insert. case_decide; subst; naive_solver.
Qed.

Lemma fold_result_extends {A}
    (step : gmap string pyval → A → result (gmap string pyval))
    (from : A → string → pyval → Prop) (items : list A) :
  (∀ dp x, x ∈ items →
     ∃ dp', step dp x = Ok dp' ∧ extends_by (from x) dp dp') →
  ∀ dp, ∃ dp',
    fold_result step items dp = Ok dp' ∧
    extends_by (λ nm v, ∃ x, x ∈ items ∧ from x nm v) dp dp'.
Proof.
  induction items as [|x items IH]; intros Hstep dp.
  - exists dp. split; [done|]. split.
    + intros nm. split; [auto|].
      intros [?|(v & y & ?%elem_of_nil & _)]; done.
    + auto.
  - destruct (Hstep dp x) as (dp1 & Hx & [H1 H1']); [by left|].
    destruct (IH (λ dp y Hy, Hstep dp y (list_elem_of_further _ _ _ Hy)) dp1)
      as (dp2 & Hrest & [H2 H2']).
    exists dp2. split.
    { simpl. unfold mbind, result_bind. by rewrite Hx. }
    split.
    + intros nm. rewrite H2, H1. split.
      * intros [[?|[v Hv]]|(v & y & Hy & Hv)]; [by left|right..].
        -- exists v, x. split; [by left|done].
        -- exists v, y. split; [by right|done].
      * intros [?|(v & y & [->|Hy]%elem_of_cons & Hv)]; [by left; left|..].
        -- left. right. eauto.
        -- right. eauto.
    + intros nm v [[?|Hv]%H1'|(y & Hy & Hv)]%H2'; [by left|right..].
      * exists x. split; [by left|done].
      * exists y. split; [by right|done].
Qed.

Section ExternalMore.
Variables (hash_str : string → Z) (fs : FileSystem).

Lemma fold_result_fmap {A B C} (f : A → B) (step : C → B → result C)
    (xs : list A) (acc : C) :
  fold_result step (f <$> xs) acc = fold_result (λ acc x, step acc (f x)) xs acc.
Proof.
  revert acc. induction xs as [|x xs IH]; intros acc; simpl; [done|].
  unfold mbind, result_bind. by destruct (step acc (f x)).
Qed.

Lemma flatten_level_2_extends l1 dp l2 d2 :
  ∃ dp',
    flatten_level_2 l1 dp (Ok (l2, VDict d2)) = Ok dp' ∧
    extends_by
      (λ nm v, ∃ l3, d2 !! l3 = Some v ∧
                     nm = l1 +:+ "." +:+ l2 +:+ "." +:+ l3)
      dp dp'.
Proof.
  destruct (fold_result_extends (λ dp x, flatten_level_3 l1 l2 dp (Ok x))
              (λ x nm v, nm = l1 +:+ "." +:+ l2 +:+ "." +:+ x.1 ∧ v = x.2)
              (map_to_list d2)) with (dp := dp) as (dp' & Hrun & [H1 H2]).
  { intros dp0 [l3 v] _. eexists. split; [reflexivity|].
    apply extends_by_insert. }
  exists dp'. split.
  { unfold flatten_level_2. simpl. by rewrite fold_result_fmap. }
  split.
  - intros nm. rewrite H1. split.
    + intros [?|(v & [l3 v'] & Hin%elem_of_map_to_list & -> & ->)];
        [by left|]. right. simpl in *. eauto.
    + intros [?|(v & l3 & Hl3 & ->)]; [by left|]. right.
      exists v, (l3, v). split; [by apply elem_of_map_to_list|done].
  - intros nm v [?|([l3 v'] & Hin%elem_of_map_to_list & -> & ->)]%H2;
      [by left|]. right. simpl in *. eauto.
Qed.

Lemma flatten_level_1_extends dp l1 d1 :
  (∀ l2 v2, d1 !! l2 = Some v2 → ∃ d2, v2 = VDict d2) →
  ∃ dp',
    flatten_level_1 dp (l1, VDict d1) = Ok dp' ∧
    extends_by
      (λ nm v, ∃ l2 d2 l3,
         d1 !! l2 = Some (VDict d2) ∧ d2 !! l3 = Some v ∧
         nm = l1 +:+ "." +:+ l2 +:+ "." +:+ l3)
      dp dp'.
Proof.
  intros Hdicts.
  destruct (fold_result_extends (λ dp x, flatten_level_2 l1 dp (Ok x))
              (λ x nm v, ∃ d2 l3, x.2 = VDict d2 ∧ d2 !! l3 = Some v ∧
                                  nm = l1 +:+ "." +:+ x.1 +:+ "." +:+ l3)
              (map_to_list d1)) with (dp := dp) as (dp' & Hrun & [H1 H2]).
  { intros dp0 [l2 v2] Hin%elem_of_map_to_list.
    destruct (Hdicts l2 v2 Hin) as [d2 ->].
    destruct (flatten_level_2_extends l1 dp0 l2 d2) as (dp1 & Hstep & [E1 E2]).
    exists dp1. split; [done|]. split.
    - intros nm. rewrite E1. split.
      + intros [?|(v & l3 & ? & ->)]; [by left|]. right. simpl. eauto 10.
      + intros [?|(v & d2' & l3 & [= <-] & ? & ->)]; [by left|]. right. eauto.
    - intros nm v [?|(l3 & ? & ->)]%E2; [by left|]. right. simpl. eauto 10. }
  exists dp'. split.
  { unfold flatten_level_1. simpl. by rewrite fold_result_fmap. }
  split.
  - intros nm. rewrite H1. split.
    + intros [?|(v & [l2 v2] & Hin%elem_of_map_to_list & d2 & l3 & Hv2 & ? & ->)];
        [by left|]. right. simpl in *. subst v2. eauto 10.
    + intros [?|(v & l2 & d2 & l3 & Hl2 & Hl3 & ->)]; [by left|]. right.
      exists v, (l2, VDict d2). split; [by apply elem_of_map_to_list|].
      simpl. eauto.
  - intros nm v [?|([l2 v2] & Hin%elem_of_map_to_list & d2 & l3 & Hv2 & ? & ->)]
      %H2; [by left|]. right. simpl in *. subst v2. eauto 10.
Qed.

(** X24.  For a catalog nested three levels deep whose definitions are all
    valid, [ExternalParamsSet] builds a registry whose stage names are
    exactly the dotted names [level_1.level_2.level_3] of the catalog. *)
Theorem external_names (data : gmap string pyval) :
  (∀ l1 v1, data !! l1 = Some v1 →
     ∃ d1, v1 = VDict d1 ∧
           ∀ l2 v2, d1 !! l2 = Some v2 → ∃ d2, v2 = VDict d2) →
  (∀ l1 d1 l2 d2 l3 v,
     data !! l1 = Some (VDict d1) → d1 !! l2 = Some (VDict d2) →
     d2 !! l3 = Some v →
     ∃ d p, v = VDict d ∧
            Params_init hash_str fs (l1 +:+ "." +:+ l2 +:+ "." +:+ l3) d
              = Ok p) →
  ∃ registry,
    ExternalParamsSet_init hash_str fs data = Ok registry ∧
    ∀ nm, ParamsSet_contains registry nm = true ↔
          ∃ l1 d1 l2 d2 l3 v,
            data !! l1 = Some (VDict d1) ∧ d1 !! l2 = Some (VDict d2) ∧
            d2 !! l3 = Some v ∧ nm = l1 +:+ "." +:+ l2 +:+ "." +:+ l3.
Proof.
  intros Hlevels Hvalid.
  destruct (fold_result_extends flatten_level_1
              (λ x nm v, ∃ d1 l2 d2 l3,
                 x.2 = VDict d1 ∧ d1 !! l2 = Some (VDict d2) ∧
                 d2 !! l3 = Some v ∧
                 nm = x.1 +:+ "." +:+ l2 +:+ "." +:+ l3)
              (map_to_list data)) with (dp := (∅ : gmap string pyval))
    as (dp & Hflat & [H1 H2]).
  { intros dp0 [l1 v1] Hin%elem_of_map_to_list.
    destruct (Hlevels l1 v1 Hin) as (d1 & -> & Hd1).
    destruct (flatten_level_1_extends dp0 l1 d1 Hd1) as (dp1 & Hstep & [E1 E2]).
    exists dp1. split; [done|]. split.
    - intros nm. rewrite E1. split.
      + intros [?|(v & l2 & d2 & l3 & ? & ? & ->)]; [by left|].
        right. simpl. eauto 10.
      + intros [?|(v & d1' & l2 & d2 & l3 & [= <-] & ? & ? & ->)]; [by left|].
        right. eauto 10.
    - intros nm v [?|(l2 & d2 & l3 & ? & ? & ->)]%E2; [by left|].
      right. simpl. eauto 10. }
  assert (∀ nm v, (∃ x, x ∈ map_to_list data ∧
             ∃ d1 l2 d2 l3, x.2 = VDict d1 ∧ d1 !! l2 = Some (VDict d2) ∧
               d2 !! l3 = Some v ∧ nm = x.1 +:+ "." +:+ l2 +:+ "." +:+ l3) ↔
           ∃ l1 d1 l2 d2 l3,
             data !! l1 = Some (VDict d1) ∧ d1 !! l2 = Some (VDict d2) ∧
             d2 !! l3 = Some v ∧ nm = l1 +:+ "." +:+ l2 +:+ "." +:+ l3)
    as Hfrom.
  { intros nm v. split.
    - intros ([l1 v1] & Hin%elem_of_map_to_list & d1 & l2 & d2 & l3 & Hv1 & ? & ? & ->).
      simpl in *. subst v1. eauto 10.
    - intros (l1 & d1 & l2 & d2 & l3 & Hl1 & ? & ? & ->).
      exists (l1, VDict d1). split; [by apply elem_of_map_to_list|].
      simpl. eauto 10. }
  destruct (ConfigSpec.ParamsSet_init_valid hash_str fs dp)
    as (registry & Hinit & _ & Hmem).
  { intros key v [Hempty|Hv]%H2; [by rewrite lookup_empty in Hempty|].
    apply Hfrom in Hv as (l1 & d1 & l2 & d2 & l3 & ? & ? & ? & ->).
    by eapply Hvalid. }
  exists registry. split.
  { unfold ExternalParamsSet_init, mbind, result_bind. by rewrite Hflat. }
  intros nm. rewrite Hmem, H1. split.
  - intros [[? Hempty]|[v Hv]]; [by rewrite lookup_empty in Hempty|].
    apply Hfrom in Hv as (l1 & d1 & l2 & d2 & l3 & ? & ? & ? & ->). eauto 10.
  - intros (l1 & d1 & l2 & d2 & l3 & v & ? & ? & ? & ->).
    right. exists v. apply Hfrom. eauto 10.
Qed.

End ExternalMore.

Lemma external_names_witness :
  ∃ registry,
    ExternalParamsSet_init sample_hash installed nested_catalog = Ok registry ∧
    ParamsSet_contains registry "network.correlation.sparcc" = true.
Proof.
  destruct (external_names sample_hash installed nested_catalog)
    as (registry & Hinit & Hnames).
  - intros l1 v1 Hl1. unfold nested_catalog in Hl1.
    apply lookup_singleton_Some in Hl1 as [<- <-].
    eexists. split; [reflexivity|].
    intros l2 v2 [<- <-]%lookup_singleton_Some. by eexists.
  - intros l1 d1 l2 d2 l3 v Hl1. unfold nested_catalog in Hl1.
    apply lookup_singleton_Some in Hl1 as [<- [= <-]].
    intros [<- [= <-]]%lookup_singleton_Some Hl3.
    apply lookup_insert_Some in Hl3 as [[<- <-]|[_ Hl3]].
    + eexists _, _. split; [reflexivity|]. by vm_compute.
    + apply lookup_singleton_Some in Hl3 as [<- <-].
      eexists _, _. split; [reflexivity|]. by vm_compute.
  - exists registry. split; [exact Hinit|].
    apply Hnames. eexists "network", _, "correlation", _, "sparcc", _.
    split; [reflexivity|]. split; [reflexivity|]. split; [reflexivity|].
    reflexivity.
Defined.

End ConfigMore.
